(** * TABITABO: the column-reconciliation engine of [app.py]

    A shallow embedding of the three pure functions of [app.py]
    ([calculate_similarity], [find_best_match], [create_decision_table];
    [app_demo.py] and [test_logic.py] carry verbatim copies) and the
    properties the design document states about them.

    Data model:
    - a Python [str] is a [string] whose characters are the code points
      U+0000 to U+00FF (not UTF-8 bytes); [str.lower] keeps such a text
      within these code points. [str.upper] does not, and [str.lower]
      changes the length of some texts beyond them: what the scorer does
      there is modelled in the module [Unicode], on a set of code points
      closed under both mappings;
    - a metadata [DataFrame] with the columns [column_name] and [comment] is
      the list of its rows, in index order;
    - the [set()] of consumed names is a [gset string];
    - [Optional[str]] is [option string]; Python truthiness of a string is
      written out ([truthy]);
    - an exception is a value of [py_error] in the result type [py].

    Around the engine, the file also embeds the loop of
    [get_table_metadata] over the rows of [DESCRIBE TABLE], the statements
    of [update_table_comments], the figures and the confirm branch of
    [main], and [get_demo_table_metadata] of [app_demo.py]. Spark is a
    parameter there: the rows a query answers, and a database that a
    statement takes to a next state or that raises. *)

From Stdlib Require Import Ascii.
From stdpp Require Import gmap strings list.

Local Open Scope nat_scope.

(** ** The third-party function [Levenshtein.distance] *)

Module Levenshtein.
Section Distance.
Context {A : Type} `{EqDecision A}.

(** Cost of turning [x] into [y]: free when they agree. *)
Definition subst_cost (x y : A) : nat := if decide (x = y) then 0 else 1.

Definition min3 (i j k : nat) : nat := Nat.min (Nat.min i j) k.

(** Reference definition of the edit distance: the least number of
    single-character deletions, insertions and substitutions, by the
    usual recursion on the two heads. *)
Fixpoint lev (a : list A) : list A → nat :=
  match a with
  | [] => λ b, length b
  | x :: a' =>
      fix lev_a (b : list A) : nat :=
        match b with
        | [] => S (length a')
        | y :: b' =>
            min3 (S (lev a' b)) (S (lev_a b')) (lev a' b' + subst_cost x y)
        end
  end.

(** The executable form, a dynamic programme: one row of the table per
    character of [a], each row holding the distances to the suffixes of
    [b], longest suffix first. It is proved equal to [lev] below
    ([distance_list_lev]). *)
Fixpoint first_row (b : list A) : list nat :=
  match b with
  | [] => [0]
  | _ :: b' => S (length b') :: first_row b'
  end.

Fixpoint next_row (x : A) (b : list A) (prev : list nat) : list nat :=
  match b, prev with
  | [], p :: _ => [S p]
  | y :: b', p0 :: prev' =>
      let rest := next_row x b' prev' in
      min3 (S p0) (S (hd 0 rest)) (hd 0 prev' + subst_cost x y) :: rest
  | _, [] => []
  end.

(** The suffixes of [b], longest first: the columns of the table. *)
Fixpoint suffixes (b : list A) : list (list A) :=
  b :: match b with [] => [] | _ :: b' => suffixes b' end.

Definition rows (a b : list A) : list nat :=
  foldr (λ x prev, next_row x b prev) (first_row b) a.

Definition distance_list (a b : list A) : nat := hd 0 (rows a b).
End Distance.

(** [Levenshtein.distance(s1, s2)] on two Python strings. *)
Definition distance (s1 s2 : string) : nat :=
  distance_list (String.list_ascii_of_string s1) (String.list_ascii_of_string s2).
End Levenshtein.

(** ** Python built-ins used by the engine *)

Module Py.
(** [str.lower] on the code points U+0000 to U+00FF, character by
    character: the letters A to Z, and the letters U+00C0 to U+00DE but for
    the sign U+00D7, move up by 32; every other code point is left as it
    is. *)
Definition lower_char (c : ascii) : ascii :=
  let n := nat_of_ascii c in
  if (65 <=? n) && (n <=? 90)
     || (192 <=? n) && (n <=? 222) && negb (n =? 215)
  then ascii_of_nat (n + 32) else c.

Fixpoint lower (s : string) : string :=
  match s with
  | EmptyString => EmptyString
  | String c s' => String (lower_char c) (lower s')
  end.

(** [len(s)]. *)
Definition len (s : string) : nat := String.length s.

(** Truthiness of a string: every string but the empty one. *)
Definition truthy (s : string) : bool :=
  match s with
  | EmptyString => false
  | String _ _ => true
  end.

(** Truthiness of an [Optional[str]]: [None] and the empty string are
    falsy. *)
Definition truthy_opt (o : option string) : bool :=
  match o with
  | None => false
  | Some s => truthy s
  end.

(** Exceptions the engine can meet, and results that may raise. *)
Inductive py_error : Type :=
  | IndexError.

Inductive py (A : Type) : Type :=
  | Ok (a : A)
  | Raise (e : py_error).
Global Arguments Ok {A} a.
Global Arguments Raise {A} e.

Definition bind {A B : Type} (m : py A) (k : A → py B) : py B :=
  match m with
  | Ok a => k a
  | Raise e => Raise e
  end.

(** [xs.iloc[0]]: the first element, [IndexError] on an empty
    selection. *)
Definition iloc0 {A : Type} (xs : list A) : py A :=
  match xs with
  | [] => Raise IndexError
  | x :: _ => Ok x
  end.
End Py.
Import Py.

#[global] Instance py_ret : MRet py := @Ok.
#[global] Instance py_bind : MBind py := λ A B k m, Py.bind m k.

(** ** [calculate_similarity] *)

Definition calculate_similarity (col1 col2 : string) : nat :=
  Levenshtein.distance (lower col1) (lower col2).

(** ** The scorer on texts beyond U+00FF *)

(** [str.upper] takes three code points below U+0100 out of that range
    (U+00B5 to U+039C, U+00DF to two letters S, U+00FF to U+0178), and
    [str.lower] turns U+0130 into two code points. The module models the
    scorer on the code points U+0000 to U+00FF together with U+0130,
    U+0178, U+0307, U+039C and U+03BC: a set that both mappings keep
    within itself, and on which they work code point by code point. *)
Module Unicode.
Inductive code_point : Type :=
  | Latin1 (c : ascii)
  | U0130
  | U0178
  | U0307
  | U039C
  | U03BC.

#[global] Instance code_point_eq_dec : EqDecision code_point.
Proof. solve_decision. Defined.

(** [chr(c).lower()] *)
Definition lower_cp (c : code_point) : list code_point :=
  match c with
  | Latin1 a => [Latin1 (lower_char a)]
  | U0130 => [Latin1 "i"%char; U0307]
  | U0178 => [Latin1 (ascii_of_nat 255)]
  | U0307 => [U0307]
  | U039C => [U03BC]
  | U03BC => [U03BC]
  end.

(** [chr(c).upper()] *)
Definition upper_cp (c : code_point) : list code_point :=
  match c with
  | Latin1 a =>
      let n := nat_of_ascii a in
      if n =? 181 then [U039C]
      else if n =? 223 then [Latin1 "S"%char; Latin1 "S"%char]
      else if n =? 255 then [U0178]
      else if (97 <=? n) && (n <=? 122)
              || (224 <=? n) && (n <=? 254) && negb (n =? 247)
      then [Latin1 (ascii_of_nat (n - 32))]
      else [Latin1 a]
  | U0130 => [U0130]
  | U0178 => [U0178]
  | U0307 => [U0307]
  | U039C => [U039C]
  | U03BC => [U039C]
  end.

(** [s.lower()] and [s.upper()] *)
Definition lower (s : list code_point) : list code_point := s ≫= lower_cp.

Definition upper (s : list code_point) : list code_point := s ≫= upper_cp.

(** [len(s)] *)
Definition len (s : list code_point) : nat := length s.

(** [calculate_similarity], on these texts. *)
Definition calculate_similarity (col1 col2 : list code_point) : nat :=
  Levenshtein.distance_list (lower col1) (lower col2).

(** A [string] as a text of code points. *)
Definition of_string (s : string) : list code_point :=
  Latin1 <$> String.list_ascii_of_string s.



(** The word [straße], with U+00DF for its sixth letter. *)
Definition strasse : list code_point :=
  of_string "stra" ++ [Latin1 (ascii_of_nat 223)] ++ of_string "e".
End Unicode.

(** ** [find_best_match] *)

(** [best_distance] starts at [float('inf')]: [None] stands for the
    infinity, above every distance. *)
Definition lt_best (distance : nat) (best_distance : option nat) : bool :=
  match best_distance with
  | None => true
  | Some b => distance <? b
  end.

(** One turn of the [for source_col in source_cols] loop on the pair
    [(best_match, best_distance)]. *)
Definition find_step (target_col : string)
    (st : option string * option nat) (source_col : string)
    : option string * option nat :=
  let '(best_match, best_distance) := st in
  let distance := calculate_similarity target_col source_col in
  if (distance <=? 3) && lt_best distance best_distance
  then (Some source_col, Some distance)
  else (best_match, best_distance).

Definition find_loop (target_col : string) (source_cols : list string)
    (st : option string * option nat) : option string * option nat :=
  foldl (find_step target_col) st source_cols.

Definition find_best_match (target_col : string) (source_cols : list string)
    : option string :=
  fst (find_loop target_col source_cols (None, None)).

(** ** [create_decision_table] *)

(** A row of a metadata frame (columns [column_name], [comment]). *)
Record ColumnMetadata : Type := MkColumn {
  column_name : string;
  comment : string
}.

(** A row of the decision table. *)
Record DecisionRow : Type := MkDecision {
  sostituire : bool;
  colonna_tabo : string;
  comment_tabo : string;
  colonna_tabi : string;
  comment_tabi : string;
  descrizione_proposta : string
}.

Abbreviation TableMetadata := (list ColumnMetadata) (only parsing).
Abbreviation DecisionTable := (list DecisionRow) (only parsing).

(** [[col for col in tabi_metadata['column_name'].tolist()
      if col not in used_tabi_cols]] *)
Definition available_tabi_cols (tabi_metadata : TableMetadata)
    (used_tabi_cols : gset string) : list string :=
  filter (λ col, col ∉ used_tabi_cols) (column_name <$> tabi_metadata).

(** [tabi_metadata[tabi_metadata['column_name'] == best_match]['comment']] *)
Definition comments_of (tabi_metadata : TableMetadata) (best_match : string)
    : list string :=
  comment <$> filter (λ r, column_name r = best_match) tabi_metadata.

(** The [if tabo_comment: ... elif tabi_comment: ... else: ...] chain. *)
Definition proposed (tabo_comment tabi_comment : string) : string :=
  if truthy tabo_comment then tabo_comment
  else if truthy tabi_comment then tabi_comment
  else EmptyString.

(** The state of the loop: [decision_data] and [used_tabi_cols]. *)
Abbreviation loop_state := (list DecisionRow * gset string)%type (only parsing).

(** The body of [for _, tabo_row in tabo_metadata.iterrows()]. *)
Definition decision_step (tabi_metadata : TableMetadata)
    (st : loop_state) (tabo_row : ColumnMetadata) : py loop_state :=
  let '(decision_data, used_tabi_cols) := st in
  let tabo_col := column_name tabo_row in
  let tabo_comment := comment tabo_row in
  let best_match :=
    find_best_match tabo_col (available_tabi_cols tabi_metadata used_tabi_cols) in
  '(used_tabi_cols, tabi_col, tabi_comment) ←
    match best_match with
    | Some m =>
        if truthy m
        then tabi_comment ← iloc0 (comments_of tabi_metadata m);
             Ok ({[ m ]} ∪ used_tabi_cols, m, tabi_comment)
        else Ok (used_tabi_cols, EmptyString, EmptyString)
    | None => Ok (used_tabi_cols, EmptyString, EmptyString)
    end;
  let descrizione_proposta := proposed tabo_comment tabi_comment in
  Ok (decision_data ++
        [ {| sostituire := true;
             colonna_tabo := tabo_col;
             comment_tabo := tabo_comment;
             colonna_tabi := tabi_col;
             comment_tabi := tabi_comment;
             descrizione_proposta := descrizione_proposta |} ],
      used_tabi_cols).

Fixpoint decision_loop (tabi_metadata : TableMetadata)
    (tabo_rows : list ColumnMetadata) (st : loop_state) : py loop_state :=
  match tabo_rows with
  | [] => Ok st
  | tabo_row :: rest =>
      st' ← decision_step tabi_metadata st tabo_row;
      decision_loop tabi_metadata rest st'
  end.

Definition create_decision_table (tabi_metadata tabo_metadata : TableMetadata)
    : py DecisionTable :=
  st ← decision_loop tabi_metadata tabo_metadata ([], ∅);
  Ok (fst st).

(** ** [get_table_metadata] *)

(** A row of the answer to [DESCRIBE TABLE]: [col_name] and a [comment]
    that may be [None]. *)
Record DescribeRow : Type := MkDescribe {
  col_name : string;
  describe_comment : option string
}.

(** [catalog.schema.table] *)
Definition full_table_name (catalog schema table : string) : string :=
  catalog +:+ "." +:+ schema +:+ "." +:+ table.

(** [row['comment'] if row['comment'] else ''] *)
Definition comment_or_empty (c : option string) : string :=
  match c with
  | Some s => if truthy s then s else EmptyString
  | None => EmptyString
  end.

(** The [for row in describe_df.collect()] loop, with its [continue] and
    its [break], on the accumulator [columns_data]. *)
Fixpoint describe_loop (rows : list DescribeRow) (columns_data : TableMetadata)
    : TableMetadata :=
  match rows with
  | [] => columns_data
  | row :: rest =>
      if String.prefix "#" (col_name row) || String.eqb (col_name row) EmptyString
      then describe_loop rest columns_data
      else if String.eqb (col_name row) "# Partition Information"
      then columns_data
      else describe_loop rest
             (columns_data ++
                [ {| column_name := col_name row;
                     comment := comment_or_empty (describe_comment row) |} ])
  end.

(** [collect] stands for [spark.sql(q).collect()]: the rows, or [None] when
    the query raises; the [except] branch answers the empty frame. A frame
    without rows is the empty list, whether or not it carries the two
    columns: [main] goes on to [create_decision_table] only with frames
    that are not empty. *)
Definition get_table_metadata (collect : string → option (list DescribeRow))
    (catalog schema table : string) : TableMetadata :=
  match collect ("DESCRIBE TABLE " +:+ full_table_name catalog schema table) with
  | Some rows => describe_loop rows []
  | None => []
  end.

(** ** [update_table_comments] *)

(** [s.replace(old, new)] for a pattern [old] of one character. *)
Fixpoint replace_char (old : ascii) (new : string) (s : string) : string :=
  match s with
  | EmptyString => EmptyString
  | String c s' =>
      if decide (c = old) then new +:+ replace_char old new s'
      else String c (replace_char old new s')
  end.

(** [new_comment.replace("'", "\\'")] *)
Definition escape_comment (new_comment : string) : string :=
  replace_char "'"%char "\'" new_comment.

(** The [ALTER TABLE] statement of one row. *)
Definition alter_statement (full_name col_name new_comment : string) : string :=
  "ALTER TABLE " +:+ full_name +:+ " ALTER COLUMN `" +:+ col_name
    +:+ "` COMMENT '" +:+ escape_comment new_comment +:+ "'".

(** What the operator is shown at the end: [st.success] with a count,
    [st.error], [st.warning]. *)
Inductive st_message : Type :=
  | StSuccess (n : nat)
  | StError
  | StWarning.

(** [updates[updates['sostituire']]] *)
Definition selected (updates : DecisionTable) : DecisionTable :=
  filter (λ row, sostituire row = true) updates.

Section Spark.
(** The database behind [spark.sql]: a statement takes a state to the next
    one, or raises ([None]) and leaves the state as it is. The session is
    taken as obtained: the loop is what can raise. *)
Context {DB : Type} (spark_sql : string → DB → option DB).

(** The [for _, row in updates.iterrows()] loop: the state reached, and
    whether the loop ran to its end ([false]: a statement raised). *)
Fixpoint update_loop (full_name : string) (updates : DecisionTable) (db : DB)
    : DB * bool :=
  match updates with
  | [] => (db, true)
  | row :: rest =>
      if sostituire row
      then match spark_sql (alter_statement full_name (colonna_tabo row)
                              (descrizione_proposta row)) db with
           | Some db' => update_loop full_name rest db'
           | None => (db, false)
           end
      else update_loop full_name rest db
  end.

Definition update_table_comments (catalog schema table : string)
    (updates : DecisionTable) (db : DB) : DB * st_message :=
  let '(db', completed) :=
    update_loop (full_table_name catalog schema table) updates db in
  (db', if completed then StSuccess (length (selected updates)) else StError).

(** ** [main]: the figures shown and the confirm button *)

(** The figures are read off a frame that carries the six columns, as the
    decision table of a target table with columns does. *)

Definition totale_colonne (edited_df : DecisionTable) : nat := length edited_df.

Definition da_sostituire (edited_df : DecisionTable) : nat :=
  length (selected edited_df).

Definition corrispondenze_trovate (edited_df : DecisionTable) : nat :=
  length (filter (λ row, colonna_tabi row ≠ EmptyString) edited_df).

(** The [CONFERMA E AZIONE] branch. *)
Definition conferma_e_azione (tabo_info : string * string * string)
    (edited_df : DecisionTable) (db : DB) : DB * st_message :=
  let updates := selected edited_df in
  if length updates =? 0 then (db, StWarning)
  else let '(tabo_catalog, tabo_schema, tabo_table) := tabo_info in
       update_table_comments tabo_catalog tabo_schema tabo_table updates db.
End Spark.

(** ** [get_demo_table_metadata] of [app_demo.py] *)

Definition demo_tables : gmap string (list ColumnMetadata) :=
  list_to_map
    [ ("customers",
       [ MkColumn "customer_id" "Unique customer identifier";
         MkColumn "first_name" "Customer first name";
         MkColumn "last_name" "Customer last name";
         MkColumn "email" "Customer email address";
         MkColumn "phone_number" "Contact phone number";
         MkColumn "created_at" "Account creation timestamp" ]);
      ("users",
       [ MkColumn "user_id" EmptyString;
         MkColumn "firstname" EmptyString;
         MkColumn "lastname" EmptyString;
         MkColumn "email_addr" EmptyString;
         MkColumn "phone" EmptyString;
         MkColumn "registration_date" EmptyString;
         MkColumn "status" "Account status (active/inactive)" ]);
      ("products",
       [ MkColumn "product_id" "Unique product identifier";
         MkColumn "product_name" "Product display name";
         MkColumn "description" "Product description";
         MkColumn "price" "Price in USD";
         MkColumn "category" "Product category";
         MkColumn "stock_quantity" "Available stock quantity" ]);
      ("items",
       [ MkColumn "item_id" EmptyString;
         MkColumn "item_name" EmptyString;
         MkColumn "desc" EmptyString;
         MkColumn "price" EmptyString;
         MkColumn "category_id" EmptyString;
         MkColumn "qty" EmptyString ]) ].

Definition get_demo_table_metadata (table_name : string) : TableMetadata :=
  match demo_tables !! lower table_name with
  | Some df => df
  | None => []
  end.

(** * Specification vocabulary *)

(** ** Results of [find_best_match] *)

(** [m] sits at index [i] of [cs], qualifies, has the least score of [cs],
    and every candidate before it scores strictly more. *)
Definition first_best (t : string) (cs : list string) (i : nat) (m : string)
    : Prop :=
  cs !! i = Some m
  ∧ calculate_similarity t m ≤ 3
  ∧ (∀ j c, cs !! j = Some c → calculate_similarity t m ≤ calculate_similarity t c)
  ∧ (∀ j c, j < i → cs !! j = Some c →
       calculate_similarity t m < calculate_similarity t c).

(** What the pair [(best_match, best_distance)] knows after the candidates
    [cs] have been scanned. *)
Definition find_inv (t : string) (cs : list string)
    (st : option string * option nat) : Prop :=
  match st with
  | (None, None) => ∀ c, c ∈ cs → 3 < calculate_similarity t c
  | (Some m, Some d) => d = calculate_similarity t m ∧ ∃ i, first_best t cs i m
  | _ => False
  end.

(** ** Rows and runs of [create_decision_table] *)

(** The row for a target column without a match. *)
Definition unmatched_row (t : ColumnMetadata) : DecisionRow :=
  {| sostituire := true;
     colonna_tabo := column_name t;
     comment_tabo := comment t;
     colonna_tabi := EmptyString;
     comment_tabi := EmptyString;
     descrizione_proposta := proposed (comment t) EmptyString |}.

(** The row for a target column matched with the source row [s]. *)
Definition matched_row (t s : ColumnMetadata) : DecisionRow :=
  {| sostituire := true;
     colonna_tabo := column_name t;
     comment_tabo := comment t;
     colonna_tabi := column_name s;
     comment_tabi := comment s;
     descrizione_proposta := proposed (comment t) (comment s) |}.

(** [s] is the first row of [tabi] named [n], at index [i]. *)
Definition first_named (tabi : TableMetadata) (n : string) (i : nat)
    (s : ColumnMetadata) : Prop :=
  tabi !! i = Some s ∧ column_name s = n
  ∧ ∀ j s', j < i → tabi !! j = Some s' → column_name s' ≠ n.

(** What one turn of the loop does to the consumed set and which row it
    appends. *)
Inductive step_spec (tabi : TableMetadata) (used : gset string)
    (t : ColumnMetadata) : DecisionRow → gset string → Prop :=
  | step_unmatched :
      truthy_opt (find_best_match (column_name t)
                    (available_tabi_cols tabi used)) = false →
      step_spec tabi used t (unmatched_row t) used
  | step_matched m i s :
      find_best_match (column_name t) (available_tabi_cols tabi used) = Some m →
      truthy m = true →
      m ∉ used →
      first_named tabi m i s →
      step_spec tabi used t (matched_row t s) ({[ m ]} ∪ used).

(** The whole loop, from the consumed set [used] on. *)
Inductive run (tabi : TableMetadata)
    : gset string → list ColumnMetadata → list DecisionRow → gset string → Prop :=
  | run_nil used : run tabi used [] [] used
  | run_cons used t r used' ts rs used'' :
      step_spec tabi used t r used' →
      run tabi used' ts rs used'' →
      run tabi used (t :: ts) (r :: rs) used''.

(** The source row a decision row is matched with: none when its
    [colonna_tabi] is empty, otherwise the first source row of that
    name. *)
Definition matched_source (tabi : TableMetadata) (r : DecisionRow)
    : option ColumnMetadata :=
  if truthy (colonna_tabi r)
  then head (filter (λ s, column_name s = colonna_tabi r) tabi)
  else None.

(** The priority rule in the words of the design document: the target's
    own comment when it is not empty, else the matched source column's
    comment when there is a match and that comment is not empty, else the
    empty string. *)
Definition proposed_comment_priority (target_comment : string)
    (matched : option ColumnMetadata) : string :=
  if decide (target_comment ≠ EmptyString) then target_comment
  else match matched with
       | Some s => if decide (comment s ≠ EmptyString) then comment s
                   else EmptyString
       | None => EmptyString
       end.

(** ** The reference scenario of [test_logic.py] *)

Definition scenario_tabi : TableMetadata :=
  [ MkColumn "customer_id" "Unique customer identifier";
    MkColumn "first_name" "Customer first name";
    MkColumn "last_name" "Customer last name";
    MkColumn "email" "Email address" ].

Definition scenario_tabo : TableMetadata :=
  [ MkColumn "user_id" EmptyString;
    MkColumn "firstname" EmptyString;
    MkColumn "lastname" EmptyString;
    MkColumn "email_addr" EmptyString;
    MkColumn "status" "User status" ].

(** ** Vocabulary for the other functions *)

(** The rows of [DESCRIBE TABLE] that name a column: the name is not empty
    and does not start with [#]. *)
Definition names_column (row : DescribeRow) : bool :=
  negb (String.prefix "#" (col_name row) || String.eqb (col_name row) EmptyString).

Definition column_of (row : DescribeRow) : ColumnMetadata :=
  {| column_name := col_name row;
     comment := comment_or_empty (describe_comment row) |}.

(** Number of occurrences of the character [c] in [s]. *)
Fixpoint count_char (c : ascii) (s : string) : nat :=
  match s with
  | EmptyString => 0
  | String c' s' => (if decide (c' = c) then 1 else 0) + count_char c s'
  end.

(** Every quote of [s] comes right after a backslash; [prev] is the
    character before [s], if any. *)
Fixpoint quotes_escaped (prev : option ascii) (s : string) : Prop :=
  match s with
  | EmptyString => True
  | String c s' =>
      (c = "'"%char → prev = Some "\"%char) ∧ quotes_escaped (Some c) s'
  end.

(** The statements [update_table_comments] is to send for [updates], in
    order. *)
Definition statements (full_name : string) (updates : DecisionTable)
    : list string :=
  (λ row, alter_statement full_name (colonna_tabo row) (descrizione_proposta row))
    <$> selected updates.

Section SparkRun.
Context {DB : Type} (spark_sql : string → DB → option DB).

(** Send the statements one after the other, stopping at the first one
    that raises. *)
Fixpoint run_statements (stmts : list string) (db : DB) : DB * bool :=
  match stmts with
  | [] => (db, true)
  | q :: rest =>
      match spark_sql q db with
      | Some db' => run_statements rest db'
      | None => (db, false)
      end
  end.
End SparkRun.

(** A database that records the statements it accepted, and raises on
    those [accepts] rejects. *)
Definition log_sql (accepts : string → bool) (q : string) (log : list string)
    : option (list string) :=
  if accepts q then Some (log ++ [q]) else None.

(** Spark answers the source with the column [name] and the target with
    the columns [name] and [names]. *)
Definition collect_example (q : string) : option (list DescribeRow) :=
  if String.eqb q "DESCRIBE TABLE c.s.source"
  then Some [MkDescribe "name" (Some "label")]
  else Some [MkDescribe "name" None; MkDescribe "names" None].

(** * Properties *)

(** ** The edit distance *)

Module LevenshteinFacts.
Import Levenshtein.
Section Facts.
Context {A : Type} `{EqDecision A}.
Implicit Types (a b : list A) (x y : A).

Lemma lev_cons_cons x y a b :
  lev (x :: a) (y :: b)
  = min3 (S (lev a (y :: b))) (S (lev (x :: a) b)) (lev a b + subst_cost x y).
Proof. reflexivity. Qed.

Lemma lev_nil_l b : lev [] b = length b.
Proof. reflexivity. Qed.

Lemma lev_nil_r a : lev a [] = length a.
Proof. by destruct a. Qed.

Lemma subst_cost_sym x y : subst_cost x y = subst_cost y x.
Proof. unfold subst_cost. repeat case_decide; congruence. Qed.

Lemma subst_cost_refl x : subst_cost x x = 0.
Proof. unfold subst_cost. by case_decide. Qed.

Lemma min3_swap i j k : min3 i j k = min3 j i k.
Proof. unfold min3. lia. Qed.

Lemma lev_sym a b : lev a b = lev b a.
Proof.
  revert b. induction a as [|x a IHa]; intros b.
  - by rewrite lev_nil_l, lev_nil_r.
  - induction b as [|y b IHb]; [done|].
    rewrite !lev_cons_cons, IHb, (IHa (y :: b)), (IHa b).
    rewrite (subst_cost_sym x y). apply min3_swap.
Qed.

Lemma lev_refl a : lev a a = 0.
Proof.
  induction a as [|x a IH]; [done|].
  rewrite lev_cons_cons, IH, subst_cost_refl. unfold min3. lia.
Qed.

Lemma hd_map_suffixes (f : list A → nat) b : hd 0 (f <$> suffixes b) = f b.
Proof. by destruct b. Qed.

Lemma first_row_lev b : first_row b = lev [] <$> suffixes b.
Proof. induction b as [|y b IH]; [done|]. simpl. by rewrite IH. Qed.

Lemma next_row_lev x a b :
  next_row x b (lev a <$> suffixes b) = lev (x :: a) <$> suffixes b.
Proof.
  induction b as [|y b IH].
  - simpl. by rewrite lev_nil_r.
  - change (suffixes (y :: b)) with ((y :: b) :: suffixes b).
    rewrite !fmap_cons. cbn [next_row].
    rewrite IH, !hd_map_suffixes. by rewrite lev_cons_cons.
Qed.

Lemma rows_lev a b : rows a b = lev a <$> suffixes b.
Proof.
  induction a as [|x a IH]; unfold rows; simpl.
  - apply first_row_lev.
  - fold (rows a b). rewrite IH. apply next_row_lev.
Qed.

(** The dynamic programme computes the edit distance. *)
Lemma distance_list_lev a b : distance_list a b = lev a b.
Proof. unfold distance_list. by rewrite rows_lev, hd_map_suffixes. Qed.
End Facts.

Lemma distance_sym s1 s2 : distance s1 s2 = distance s2 s1.
Proof. unfold distance. rewrite !distance_list_lev. apply lev_sym. Qed.

Lemma distance_refl s : distance s s = 0.
Proof. unfold distance. rewrite distance_list_lev. apply lev_refl. Qed.

Lemma distance_empty_l s : distance EmptyString s = String.length s.
Proof.
  unfold distance. rewrite distance_list_lev. simpl.
  induction s as [|c s IH]; simpl; by f_equal.
Qed.

Lemma distance_empty_r s : distance s EmptyString = String.length s.
Proof. rewrite distance_sym. apply distance_empty_l. Qed.
End LevenshteinFacts.

(** ** Case mappings *)

Lemma lower_char_idemp c : lower_char (lower_char c) = lower_char c.
Proof. by destruct c as [[] [] [] [] [] [] [] []]. Qed.

Lemma lower_idemp s : lower (lower s) = lower s.
Proof. induction s as [|c s IH]; simpl; [done|]. by rewrite lower_char_idemp, IH. Qed.

(** ** [calculate_similarity] *)

(** The scorer on code points: the case mappings. *)
Lemma unicode_lower_cons c s :
  Unicode.lower (c :: s) = Unicode.lower_cp c ++ Unicode.lower s.
Proof. reflexivity. Qed.







(** On a [string] the scorer on code points is [calculate_similarity]. *)
Lemma lev_fmap_inj {A B} `{EqDecision A, EqDecision B} (f : A → B)
    `{!Inj (=) (=) f} (a b : list A) :
  Levenshtein.lev (f <$> a) (f <$> b) = Levenshtein.lev a b.
Proof.
  revert b. induction a as [|x a IHa]; intros b.
  - simpl. by rewrite length_fmap.
  - induction b as [|y b IHb]; [simpl; by rewrite length_fmap|].
    rewrite !fmap_cons, !LevenshteinFacts.lev_cons_cons.
    rewrite <- !fmap_cons, IHb, (IHa (y :: b)), (IHa b). do 2 f_equal.
    unfold Levenshtein.subst_cost. repeat case_decide; naive_solver.
Qed.

Lemma unicode_lower_of_string s :
  Unicode.lower (Unicode.of_string s) = Unicode.of_string (lower s).
Proof.
  unfold Unicode.of_string. induction s as [|c s IH]; [done|].
  cbn [String.list_ascii_of_string lower]. rewrite !fmap_cons.
  by rewrite unicode_lower_cons, IH.
Qed.

Lemma unicode_calculate_similarity_of_string a b :
  Unicode.calculate_similarity (Unicode.of_string a) (Unicode.of_string b)
  = calculate_similarity a b.
Proof.
  unfold Unicode.calculate_similarity, calculate_similarity, Levenshtein.distance.
  rewrite !unicode_lower_of_string, !LevenshteinFacts.distance_list_lev.
  unfold Unicode.of_string. apply lev_fmap_inj. by intros x y [= ->].
Qed.




Example strasse_upper :
  Unicode.upper Unicode.strasse = Unicode.of_string "STRASSE"
  ∧ Unicode.calculate_similarity Unicode.strasse Unicode.strasse = 0
  ∧ Unicode.calculate_similarity
      (Unicode.lower Unicode.strasse) (Unicode.upper Unicode.strasse) = 2
  ∧ Unicode.calculate_similarity [] [Unicode.U0130] = 2.
Proof. by vm_compute. Qed.

(** ** [find_best_match] *)

Lemma find_loop_snoc t cs c st :
  find_loop t (cs ++ [c]) st = find_step t (find_loop t cs st) c.
Proof. unfold find_loop. by rewrite foldl_app. Qed.

Lemma lookup_snoc_Some {A} (l : list A) (x y : A) j :
  (l ++ [x]) !! j = Some y → l !! j = Some y ∨ (j = length l ∧ y = x).
Proof.
  intros [?|[Hj Hx]]%lookup_app_Some; [by left|right].
  destruct (j - length l) as [|k] eqn:E; simpl in Hx; [|done].
  split; [lia|congruence].
Qed.

Lemma find_inv_step t cs st c :
  find_inv t cs st → find_inv t (cs ++ [c]) (find_step t st c).
Proof.
  destruct st as [[m|] [d|]]; simpl; try done.
  - intros [-> (i & Hi & Hm & Hall & Hbefore)].
    destruct (Nat.leb_spec (calculate_similarity t c) 3) as [Hc|Hc]; simpl;
      [destruct (Nat.ltb_spec (calculate_similarity t c) (calculate_similarity t m))
        as [Hlt|Hge]|].
    + split; [done|]. exists (length cs). repeat split.
      * by rewrite list_lookup_middle.
      * done.
      * intros j c' [Hj|[_ ->]]%lookup_snoc_Some; [|done].
        specialize (Hall _ _ Hj). lia.
      * intros j c' Hlt' [Hj|[? _]]%lookup_snoc_Some; [|lia].
        specialize (Hall _ _ Hj). lia.
    + split; [done|]. exists i. repeat split.
      * by apply lookup_app_l_Some.
      * done.
      * intros j c' [Hj|[_ ->]]%lookup_snoc_Some; [by eapply Hall|done].
      * intros j c' Hlt' [Hj|[-> _]]%lookup_snoc_Some; [by eapply Hbefore|].
        apply lookup_lt_Some in Hi. lia.
    + split; [done|]. exists i. repeat split.
      * by apply lookup_app_l_Some.
      * done.
      * intros j c' [Hj|[_ ->]]%lookup_snoc_Some; [by eapply Hall|lia].
      * intros j c' Hlt' [Hj|[-> _]]%lookup_snoc_Some; [by eapply Hbefore|].
        apply lookup_lt_Some in Hi. lia.
  - intros Hnone.
    destruct (Nat.leb_spec (calculate_similarity t c) 3) as [Hc|Hc]; simpl.
    + split; [done|]. exists (length cs). repeat split.
      * by rewrite list_lookup_middle.
      * done.
      * intros j c' [Hj|[_ ->]]%lookup_snoc_Some; [|done].
        apply list_elem_of_lookup_2, Hnone in Hj. lia.
      * intros j c' Hlt' [Hj|[? _]]%lookup_snoc_Some; [|lia].
        apply list_elem_of_lookup_2, Hnone in Hj. lia.
    + intros c' [Hin| ->%list_elem_of_singleton]%elem_of_app; [by apply Hnone|done].
Qed.

Lemma find_loop_inv t cs : find_inv t cs (find_loop t cs (None, None)).
Proof.
  induction cs as [|c cs IH] using rev_ind.
  - simpl. intros c Hc. by apply elem_of_nil in Hc.
  - rewrite find_loop_snoc. by apply find_inv_step.
Qed.

(** The two results of [find_best_match], read off the invariant. *)
Lemma find_best_match_spec t cs :
  match find_best_match t cs with
  | Some m => ∃ i, first_best t cs i m
  | None => ∀ c, c ∈ cs → 3 < calculate_similarity t c
  end.
Proof.
  unfold find_best_match. pose proof (find_loop_inv t cs) as H.
  destruct (find_loop t cs (None, None)) as [[m|] [d|]]; simpl in *;
    try done. by destruct H.
Qed.

Lemma find_best_match_Some t cs m :
  find_best_match t cs = Some m → ∃ i, first_best t cs i m.
Proof. intros H. pose proof (find_best_match_spec t cs) as Hs. by rewrite H in Hs. Qed.

Lemma find_best_match_None t cs :
  find_best_match t cs = None → ∀ c, c ∈ cs → 3 < calculate_similarity t c.
Proof. intros H. pose proof (find_best_match_spec t cs) as Hs. by rewrite H in Hs. Qed.

Lemma find_best_match_elem t cs m : find_best_match t cs = Some m → m ∈ cs.
Proof.
  intros (i & Hi & _)%find_best_match_Some. by eapply list_elem_of_lookup_2.
Qed.

(** C4. [find_best_match] returns a match exactly when some candidate
    scores at most 3; a returned candidate comes from the list and scores
    at most 3; on the empty list the answer is [None]. *)
Theorem find_best_match_threshold (t : string) (cs : list string) :
  (is_Some (find_best_match t cs)
     ↔ ∃ c, c ∈ cs ∧ calculate_similarity t c ≤ 3)
  ∧ (∀ m, find_best_match t cs = Some m →
       m ∈ cs ∧ calculate_similarity t m ≤ 3)
  ∧ find_best_match t [] = None.
Proof.
  split; [|split; [|done]].
  - split.
    + intros [m Hm]. exists m. split; [by eapply find_best_match_elem|].
      apply find_best_match_Some in Hm as (i & _ & Hle & _). done.
    + intros (c & Hc & Hle).
      destruct (find_best_match t cs) as [m|] eqn:E; [by eexists|].
      pose proof (find_best_match_None _ _ E c Hc). lia.
  - intros m Hm. split; [by eapply find_best_match_elem|].
    apply find_best_match_Some in Hm as (i & _ & Hle & _). done.
Qed.

(** C5. The candidate returned is the first one, in input order, of those
    with the least score, that score being at most 3; and within the scan a
    candidate whose score equals the best so far leaves the state as it
    is. *)
Theorem find_best_match_first_minimal (t : string) (cs : list string) :
  match find_best_match t cs with
  | Some m =>
      ∃ i, cs !! i = Some m
           ∧ calculate_similarity t m ≤ 3
           ∧ (∀ j c, cs !! j = Some c →
                calculate_similarity t m ≤ calculate_similarity t c)
           ∧ (∀ j c, j < i → cs !! j = Some c →
                calculate_similarity t m < calculate_similarity t c)
  | None => ∀ c, c ∈ cs → 3 < calculate_similarity t c
  end
  ∧ ∀ best c, find_step t (Some best, Some (calculate_similarity t c)) c
              = (Some best, Some (calculate_similarity t c)).
Proof.
  split; [apply find_best_match_spec|].
  intros best c. unfold find_step, lt_best.
  by rewrite Nat.ltb_irrefl, andb_false_r.
Qed.

(** Ties and strict improvement on small inputs: of two candidates at
    score 1 the first is kept, and a later exact match replaces it. *)
Example find_best_match_examples :
  find_best_match "ab" ["ac"; "ad"] = Some "ac"
  ∧ find_best_match "ab" ["ac"; "ab"] = Some "ab"
  ∧ find_best_match "ab" ["abcdef"] = None.
Proof. vm_compute. by repeat split. Qed.

(** ** [create_decision_table]: one turn of the loop *)

Lemma bind_Ok {A B} (a : A) (k : A → py B) : mbind k (Ok a) = k a.
Proof. reflexivity. Qed.

Lemma elem_of_available tabi used n :
  n ∈ available_tabi_cols tabi used ↔ (n ∉ used) ∧ n ∈ (column_name <$> tabi).
Proof. unfold available_tabi_cols. by rewrite list_elem_of_filter. Qed.

Lemma iloc0_comments_of tabi m :
  m ∈ column_name <$> tabi →
  ∃ i s, iloc0 (comments_of tabi m) = Ok (comment s) ∧ first_named tabi m i s.
Proof.
  unfold comments_of, first_named. induction tabi as [|r tabi IH]; intros Hin.
  - by apply elem_of_nil in Hin.
  - rewrite filter_cons. case_decide as Hr.
    + exists 0, r. repeat split; [done|]. intros j s' Hj. lia.
    + rewrite fmap_cons in Hin. apply elem_of_cons in Hin as [->|Hin]; [done|].
      destruct (IH Hin) as (i & s & Hok & Hi & Hs & Hfirst).
      exists (S i), s. repeat split; [done..|].
      intros [|j] s' Hj Hlook; simpl in Hlook.
      * by injection Hlook as <-.
      * apply (Hfirst j); [lia|done].
Qed.

Lemma decision_step_spec tabi rows used t :
  ∃ r used', decision_step tabi (rows, used) t = Ok (rows ++ [r], used')
             ∧ step_spec tabi used t r used'.
Proof.
  unfold decision_step.
  destruct (find_best_match (column_name t) (available_tabi_cols tabi used))
    as [m|] eqn:Hfind.
  - destruct (truthy m) eqn:Hm.
    + pose proof (find_best_match_elem _ _ _ Hfind) as [Hfresh Hin]%elem_of_available.
      destruct (iloc0_comments_of tabi m Hin) as (i & s & -> & Hs).
      exists (matched_row t s), ({[ m ]} ∪ used). split.
      * rewrite !bind_Ok. unfold matched_row. by destruct Hs as (_ & -> & _).
      * by eapply step_matched.
    + exists (unmatched_row t), used. split; [done|].
      apply step_unmatched. by rewrite Hfind.
  - exists (unmatched_row t), used. split; [done|].
    apply step_unmatched. by rewrite Hfind.
Qed.

Lemma decision_loop_run tabi ts rows used :
  ∃ rs used', decision_loop tabi ts (rows, used) = Ok (rows ++ rs, used')
              ∧ run tabi used ts rs used'.
Proof.
  revert rows used. induction ts as [|t ts IH]; intros rows used.
  - exists [], used. split; [|constructor]. simpl. by rewrite app_nil_r.
  - destruct (decision_step_spec tabi rows used t) as (r & used1 & Hstep & Hspec).
    destruct (IH (rows ++ [r]) used1) as (rs & used2 & Hloop & Hrun).
    exists (r :: rs), used2. split; [|by econstructor].
    cbn [decision_loop]. rewrite Hstep, bind_Ok, Hloop. by rewrite <- app_assoc.
Qed.

(** [create_decision_table] never raises, and its rows are those of a
    [run] from the empty consumed set. *)
Lemma create_decision_table_run tabi tabo :
  ∃ dt used, create_decision_table tabi tabo = Ok dt ∧ run tabi ∅ tabo dt used.
Proof.
  destruct (decision_loop_run tabi tabo [] ∅) as (rs & used & Hloop & Hrun).
  exists rs, used. split; [|done].
  unfold create_decision_table. by rewrite Hloop.
Qed.

(** ** Facts about single rows and about runs *)

Lemma truthy_true s : truthy s = true ↔ s ≠ EmptyString.
Proof. by destruct s. Qed.

Lemma truthy_false s : truthy s = false ↔ s = EmptyString.
Proof. by destruct s. Qed.

Lemma proposed_empty_r c : proposed c EmptyString = c.
Proof. by destruct c. Qed.

(** The fields every emitted row has, whatever the match. *)
Lemma step_spec_target tabi used t r used' :
  step_spec tabi used t r used' →
  sostituire r = true ∧ colonna_tabo r = column_name t
  ∧ comment_tabo r = comment t
  ∧ descrizione_proposta r = proposed (comment t) (comment_tabi r).
Proof. by intros []. Qed.

(** The source side of an emitted row: either both source fields are
    empty, or they are the name and comment of the first source row with
    that name. *)
Lemma step_spec_source tabi used t r used' :
  step_spec tabi used t r used' →
  (colonna_tabi r = EmptyString ∧ comment_tabi r = EmptyString)
  ∨ (colonna_tabi r ≠ EmptyString
     ∧ ∃ i s, first_named tabi (colonna_tabi r) i s ∧ comment_tabi r = comment s).
Proof.
  intros [|m i s _ Hm%truthy_true _ Hs]; [by left|right].
  pose proof Hs as (_ & Hname & _). simpl. rewrite Hname. eauto.
Qed.

Lemma run_Forall2 tabi used ts rs used' :
  run tabi used ts rs used' →
  Forall2 (λ t r, ∃ u1 u2, step_spec tabi u1 t r u2) ts rs.
Proof. induction 1; constructor; eauto. Qed.

(** The consumed set only grows, by non-empty names. *)
Lemma run_used tabi used ts rs used' :
  run tabi used ts rs used' →
  used ⊆ used' ∧ ∀ n, n ∈ used' → n ∈ used ∨ n ≠ EmptyString.
Proof.
  induction 1 as [|used t r used' ts rs used'' Hstep _ [IHsub IHne]];
    [by eauto|].
  destruct Hstep as [|m i s _ Hm%truthy_true _ _].
  - done.
  - split; [set_solver|]. intros n [[->%elem_of_singleton|?]%elem_of_union|?]%IHne;
      auto.
Qed.

(** A matched row names a source column that was not consumed before the
    run. *)
Lemma run_fresh tabi used ts rs used' :
  run tabi used ts rs used' →
  ∀ r, r ∈ rs → colonna_tabi r ≠ EmptyString → colonna_tabi r ∉ used.
Proof.
  induction 1 as [|used t r used' ts rs used'' Hstep Hrun IH]; intros r' Hin Hne.
  - by apply elem_of_nil in Hin.
  - apply elem_of_cons in Hin as [->|Hin].
    + destruct Hstep as [|m i s _ _ Hfresh (_ & Hname & _)]; [done|].
      simpl. by rewrite Hname.
    + specialize (IH _ Hin Hne).
      destruct Hstep; [done|set_solver].
Qed.

(** No two rows of a run are matched with the same source name. *)
Lemma run_injective tabi used ts rs used' :
  run tabi used ts rs used' →
  ∀ i j ri rj, rs !! i = Some ri → rs !! j = Some rj →
    colonna_tabi ri ≠ EmptyString →
    colonna_tabi ri = colonna_tabi rj → i = j.
Proof.
  induction 1 as [|used t r used' ts rs used'' Hstep Hrun IH];
    intros i j ri rj Hi Hj Hne Heq; [done|].
  assert (∀ r', r' ∈ rs → colonna_tabi r' ≠ EmptyString →
            colonna_tabi r' ≠ colonna_tabi r) as Hhead.
  { intros r' Hin Hne' Heq'. pose proof (run_fresh _ _ _ _ _ Hrun _ Hin Hne') as Hf.
    destruct Hstep as [|m k s _ _ _ (_ & Hname & _)]; [done|].
    simpl in Heq'. rewrite Hname in Heq'. set_solver. }
  destruct i as [|i], j as [|j]; simpl in Hi, Hj.
  - done.
  - injection Hi as ->. apply list_elem_of_lookup_2 in Hj.
    exfalso. apply (Hhead rj Hj); congruence.
  - injection Hj as ->. apply list_elem_of_lookup_2 in Hi.
    exfalso. by apply (Hhead ri Hi).
  - f_equal. by eapply IH.
Qed.

Lemma first_named_head tabi n i s :
  first_named tabi n i s →
  head (filter (λ r, column_name r = n) tabi) = Some s.
Proof.
  revert i. induction tabi as [|r tabi IH]; intros i (Hi & Hs & Hfirst); [done|].
  rewrite filter_cons. destruct i as [|i]; simpl in Hi.
  - injection Hi as ->. by rewrite decide_True.
  - rewrite decide_False.
    + apply (IH i). repeat split; [done..|].
      intros j s' Hj Hlook. apply (Hfirst (S j)); [lia|done].
    + apply (Hfirst 0); [lia|done].
Qed.

(** With no source rows, no turn of the loop can match. *)
Lemma run_empty_source used ts rs used' :
  run [] used ts rs used' → rs = unmatched_row <$> ts.
Proof.
  induction 1 as [|used t r used' ts rs used'' Hstep _ IH]; [done|].
  rewrite fmap_cons, IH. by destruct Hstep as [|m i s _ _ _ (? & _)].
Qed.

(** ** The decision table *)

Lemma proposed_priority c1 c2 :
  proposed c1 c2
  = if decide (c1 ≠ EmptyString) then c1
    else if decide (c2 ≠ EmptyString) then c2 else EmptyString.
Proof. by destruct c1, c2. Qed.

Lemma step_spec_priority tabi used t r used' :
  step_spec tabi used t r used' →
  colonna_tabi r = from_option column_name EmptyString (matched_source tabi r)
  ∧ comment_tabi r = from_option comment EmptyString (matched_source tabi r)
  ∧ descrizione_proposta r
    = proposed_comment_priority (comment t) (matched_source tabi r).
Proof.
  intros Hstep. pose proof (step_spec_target _ _ _ _ _ Hstep) as (_ & _ & _ & ->).
  unfold matched_source, proposed_comment_priority. rewrite proposed_priority.
  destruct (step_spec_source _ _ _ _ _ Hstep)
    as [[-> ->]|[Hne%truthy_true (i & s & Hs & ->)]]; simpl.
  - by repeat split.
  - rewrite Hne, (first_named_head _ _ _ _ Hs). simpl.
    by destruct Hs as (_ & -> & _).
Qed.

(** C1. Row by row, in target order, [descrizione_proposta] follows the
    priority rule: the target column's own comment when non-empty, whether
    or not a source was matched; otherwise the matched source column's
    comment when there is a match with a non-empty comment; otherwise the
    empty string. The source fields of the row are those of the match. *)
Theorem proposed_comment_by_priority (tabi tabo : TableMetadata) :
  ∃ dt, create_decision_table tabi tabo = Ok dt
    ∧ Forall2 (λ t r,
        colonna_tabi r
          = from_option column_name EmptyString (matched_source tabi r)
        ∧ comment_tabi r
          = from_option comment EmptyString (matched_source tabi r)
        ∧ descrizione_proposta r
          = proposed_comment_priority (comment t) (matched_source tabi r))
        tabo dt.
Proof.
  destruct (create_decision_table_run tabi tabo) as (dt & used & Hok & Hrun).
  exists dt. split; [done|].
  eapply Forall2_impl; [by eapply run_Forall2|].
  intros t r (u1 & u2 & Hstep). by eapply step_spec_priority.
Qed.

(** C2. In the returned table no two rows carry the same source column:
    rows at different positions with a non-empty [colonna_tabi] have
    different ones. A consumed name is out of every later candidate pool. *)
Theorem source_column_used_at_most_once (tabi tabo : TableMetadata) :
  ∃ dt, create_decision_table tabi tabo = Ok dt
    ∧ (∀ i j ri rj, dt !! i = Some ri → dt !! j = Some rj →
         colonna_tabi ri ≠ EmptyString →
         colonna_tabi ri = colonna_tabi rj → i = j)
    ∧ (∀ used n, n ∈ used → n ∉ available_tabi_cols tabi used).
Proof.
  destruct (create_decision_table_run tabi tabo) as (dt & used & Hok & Hrun).
  exists dt. split; [done|]. split.
  - by eapply run_injective.
  - intros u n Hn [Hfresh _]%elem_of_available. done.
Qed.

(** C3. The returned table has one row per target column, in the order of
    the target table, and [sostituire] is true in every row. *)
Theorem one_row_per_target_column (tabi tabo : TableMetadata) :
  ∃ dt, create_decision_table tabi tabo = Ok dt
    ∧ length dt = length tabo
    ∧ colonna_tabo <$> dt = column_name <$> tabo
    ∧ comment_tabo <$> dt = comment <$> tabo
    ∧ Forall (λ r, sostituire r = true) dt.
Proof.
  destruct (create_decision_table_run tabi tabo) as (dt & used & Hok & Hrun).
  exists dt. split; [done|].
  apply run_Forall2 in Hrun. clear Hok.
  induction Hrun as [|t r ts rs (u1 & u2 & Hstep) _ (IHlen & IHcol & IHcom & IHall)];
    [by repeat split|].
  apply step_spec_target in Hstep as (Hs & Hcol & Hcom & _).
  rewrite !fmap_cons, IHcol, IHcom, Hcol, Hcom. simpl.
  repeat split; [by f_equal|by constructor].
Qed.

(** C7. [create_decision_table] returns a table for every pair of tables;
    with an empty source table every row is unmatched; with an empty target
    table the result is the empty table. *)
Theorem create_decision_table_total (tabi tabo : TableMetadata) :
  (∃ dt, create_decision_table tabi tabo = Ok dt)
  ∧ (∃ dt, create_decision_table [] tabo = Ok dt
       ∧ length dt = length tabo
       ∧ Forall (λ r, colonna_tabi r = EmptyString
                      ∧ comment_tabi r = EmptyString) dt)
  ∧ create_decision_table tabi [] = Ok [].
Proof.
  split; [|split; [|done]].
  - destruct (create_decision_table_run tabi tabo) as (dt & used & Hok & _).
    by exists dt.
  - destruct (create_decision_table_run [] tabo) as (dt & used & Hok & Hrun).
    exists dt. split; [done|].
    apply run_empty_source in Hrun as ->. rewrite length_fmap. split; [done|].
    apply Forall_fmap, Forall_true. by intros t.
Qed.

(** C8. Whatever the source table, repeated names included, the call
    returns a table, and the [comment_tabi] of a matched row is the comment
    of the first source row, in table order, that has the matched name. *)
Theorem duplicate_source_names_first_wins (tabi tabo : TableMetadata) :
  ∃ dt, create_decision_table tabi tabo = Ok dt
    ∧ ∀ r, r ∈ dt → colonna_tabi r ≠ EmptyString →
        ∃ i s, tabi !! i = Some s
               ∧ column_name s = colonna_tabi r
               ∧ (∀ j s', j < i → tabi !! j = Some s' →
                    column_name s' ≠ colonna_tabi r)
               ∧ comment_tabi r = comment s.
Proof.
  destruct (create_decision_table_run tabi tabo) as (dt & used & Hok & Hrun).
  exists dt. split; [done|]. intros r Hin Hne.
  apply run_Forall2 in Hrun.
  destruct (proj1 (list_elem_of_lookup dt r) Hin) as [k Hk].
  destruct (Forall2_lookup_r _ _ _ _ _ Hrun Hk) as (t & _ & u1 & u2 & Hstep).
  destruct (step_spec_source _ _ _ _ _ Hstep)
    as [[? _]|[_ (i & s & (Hi & Hname & Hfirst) & Hcom)]]; [done|].
  by exists i, s.
Qed.

(** A source table with the name [id] twice: the match takes the comment
    of the first of the two rows. *)
Example duplicate_source_names_example :
  create_decision_table
    [MkColumn "id" "first"; MkColumn "id" "second"] [MkColumn "id" EmptyString]
  = Ok [ {| sostituire := true; colonna_tabo := "id";
            comment_tabo := EmptyString;
            colonna_tabi := "id"; comment_tabi := "first";
            descrizione_proposta := "first" |} ].
Proof. vm_compute. reflexivity. Qed.

(** ** The reference scenario *)

(** C9. On the reference scenario the table has exactly five rows:
    [user_id] unmatched with an empty proposal, [firstname] matched with
    [first_name], [lastname] matched with [last_name], each taking the
    source comment, [email_addr] unmatched with an empty proposal, and
    [status] unmatched, keeping its own comment. *)
Theorem reference_scenario :
  create_decision_table scenario_tabi scenario_tabo
  = Ok [ {| sostituire := true; colonna_tabo := "user_id";
            comment_tabo := EmptyString;
            colonna_tabi := EmptyString; comment_tabi := EmptyString;
            descrizione_proposta := EmptyString |};
         {| sostituire := true; colonna_tabo := "firstname";
            comment_tabo := EmptyString;
            colonna_tabi := "first_name";
            comment_tabi := "Customer first name";
            descrizione_proposta := "Customer first name" |};
         {| sostituire := true; colonna_tabo := "lastname";
            comment_tabo := EmptyString;
            colonna_tabi := "last_name";
            comment_tabi := "Customer last name";
            descrizione_proposta := "Customer last name" |};
         {| sostituire := true; colonna_tabo := "email_addr";
            comment_tabo := EmptyString;
            colonna_tabi := EmptyString; comment_tabi := EmptyString;
            descrizione_proposta := EmptyString |};
         {| sostituire := true; colonna_tabo := "status";
            comment_tabo := "User status";
            colonna_tabi := EmptyString; comment_tabi := EmptyString;
            descrizione_proposta := "User status" |} ].
Proof. vm_compute. reflexivity. Qed.

(** The distances the scenario and the tests of [test_logic.py] quote. *)
Example scenario_distances :
  calculate_similarity "firstname" "first_name" = 1
  ∧ calculate_similarity "email_addr" "email" = 5
  ∧ 3 < calculate_similarity "user_id" "customer_id"
  ∧ calculate_similarity "customer_id" "customer_i" = 1.
Proof. vm_compute. repeat split; lia. Qed.

(** ** A source column with the empty name *)

(** C10. When [find_best_match] selects the empty string, the turn of the
    loop is the one of a target without a match: the unmatched row is
    appended and the consumed set is left as it was. Hence, over a whole
    call, the empty name is never in the consumed set, and a row whose
    [colonna_tabi] is empty has an empty [comment_tabi]. *)
Theorem empty_source_name_never_matched (tabi : TableMetadata) :
  (∀ rows used t,
     find_best_match (column_name t) (available_tabi_cols tabi used)
       = Some EmptyString →
     decision_step tabi (rows, used) t = Ok (rows ++ [unmatched_row t], used))
  ∧ (∀ rows used t,
       find_best_match (column_name t) (available_tabi_cols tabi used) = None →
       decision_step tabi (rows, used) t = Ok (rows ++ [unmatched_row t], used))
  ∧ (∀ tabo, ∃ dt used,
       decision_loop tabi tabo ([], ∅) = Ok (dt, used)
       ∧ create_decision_table tabi tabo = Ok dt
       ∧ (EmptyString ∉ used)
       ∧ ∀ r, r ∈ dt → colonna_tabi r = EmptyString →
           comment_tabi r = EmptyString).
Proof.
  split; [|split].
  - intros rows used t Hfind. unfold decision_step. by rewrite Hfind.
  - intros rows used t Hfind. unfold decision_step. by rewrite Hfind.
  - intros tabo.
    destruct (decision_loop_run tabi tabo [] ∅) as (dt & used & Hloop & Hrun).
    exists dt, used. split; [done|]. split.
    { unfold create_decision_table. by rewrite Hloop. }
    split.
    + intros Hin. by destruct (proj2 (run_used _ _ _ _ _ Hrun) _ Hin).
    + intros r Hin Hempty. apply run_Forall2 in Hrun.
      destruct (proj1 (list_elem_of_lookup dt r) Hin) as [k Hk].
      destruct (Forall2_lookup_r _ _ _ _ _ Hrun Hk) as (t & _ & u1 & u2 & Hstep).
      by destruct (step_spec_source _ _ _ _ _ Hstep) as [[_ ?]|[? _]].
Qed.

(** The source table has one column, named with the empty string and
    carrying a comment; the target [ab] is at distance 2 from it, so
    [find_best_match] selects it, and the row comes out unmatched. *)
Lemma empty_source_name_never_matched_witness :
  find_best_match "ab"
    (available_tabi_cols [MkColumn EmptyString "orphan"] ∅) = Some EmptyString
  ∧ decision_step [MkColumn EmptyString "orphan"] ([], ∅)
      (MkColumn "ab" EmptyString)
    = Ok ([unmatched_row (MkColumn "ab" EmptyString)], ∅).
Proof.
  split; [vm_compute; reflexivity|].
  apply (proj1 (empty_source_name_never_matched [MkColumn EmptyString "orphan"])
           [] ∅ (MkColumn "ab" EmptyString)).
  vm_compute. reflexivity.
Defined.

(** * Further properties of the engine *)

(** ** Bounds on the edit distance *)

Module LevenshteinBounds.
Import Levenshtein LevenshteinFacts.
Section Bounds.
Context {A : Type} `{EqDecision A}.
Implicit Types (a b : list A) (x y : A).

Lemma subst_cost_le x y : subst_cost x y ≤ 1.
Proof. unfold subst_cost. case_decide; lia. Qed.

Lemma lev_length_le a b : length a ≤ lev a b + length b.
Proof.
  revert b. induction a as [|x a IHa]; intros b; [simpl; lia|].
  induction b as [|y b IHb]; [simpl; lia|].
  rewrite lev_cons_cons. pose proof (IHa (y :: b)). pose proof (IHa b).
  cbn [length] in *. unfold min3. lia.
Qed.

Lemma lev_le_max a b : lev a b ≤ length a `max` length b.
Proof.
  revert b. induction a as [|x a IHa]; intros b; [simpl; lia|].
  destruct b as [|y b]; [simpl; lia|].
  rewrite lev_cons_cons. pose proof (IHa b). pose proof (subst_cost_le x y).
  cbn [length]. unfold min3. lia.
Qed.

Lemma lev_zero a b : lev a b = 0 → a = b.
Proof.
  revert b. induction a as [|x a IHa]; intros b.
  - rewrite lev_nil_l. by destruct b.
  - destruct b as [|y b]; [done|].
    rewrite lev_cons_cons. unfold min3, subst_cost. intros Hz.
    case_decide as Hxy; [|lia]. rewrite (IHa b); [by subst|lia].
Qed.
End Bounds.

Lemma length_list_ascii s :
  length (String.list_ascii_of_string s) = String.length s.
Proof. induction s as [|c s IH]; simpl; by f_equal. Qed.

Lemma list_ascii_inj s1 s2 :
  String.list_ascii_of_string s1 = String.list_ascii_of_string s2 → s1 = s2.
Proof.
  intros Heq.
  rewrite <- (String.string_of_list_ascii_of_string s1),
    <- (String.string_of_list_ascii_of_string s2). by rewrite Heq.
Qed.

Lemma distance_length_le s1 s2 :
  String.length s1 ≤ distance s1 s2 + String.length s2.
Proof.
  unfold distance. rewrite distance_list_lev, <- !length_list_ascii.
  apply lev_length_le.
Qed.

Lemma distance_le_max s1 s2 :
  distance s1 s2 ≤ String.length s1 `max` String.length s2.
Proof.
  unfold distance. rewrite distance_list_lev, <- !length_list_ascii.
  apply lev_le_max.
Qed.

Lemma distance_zero s1 s2 : distance s1 s2 = 0 ↔ s1 = s2.
Proof.
  split; [|intros ->; apply distance_refl].
  unfold distance. rewrite distance_list_lev.
  intros Hz%lev_zero. by apply list_ascii_inj.
Qed.
End LevenshteinBounds.

(** ** More on [calculate_similarity] and [find_best_match] *)

Lemma calculate_similarity_sym a b :
  calculate_similarity a b = calculate_similarity b a.
Proof. apply LevenshteinFacts.distance_sym. Qed.

(** X1. The score is at least the difference of the lengths of the two
    names once in lower case, and at most the greater of these two
    lengths. *)
Theorem calculate_similarity_bounds (a b : string) :
  len (lower a) ≤ calculate_similarity a b + len (lower b)
  ∧ len (lower b) ≤ calculate_similarity a b + len (lower a)
  ∧ calculate_similarity a b ≤ len (lower a) `max` len (lower b).
Proof.
  unfold calculate_similarity, len.
  pose proof (LevenshteinBounds.distance_length_le (lower a) (lower b)).
  pose proof (LevenshteinBounds.distance_length_le (lower b) (lower a)).
  pose proof (LevenshteinBounds.distance_le_max (lower a) (lower b)).
  rewrite (LevenshteinFacts.distance_sym (lower b)) in *. lia.
Qed.

Lemma score_zero_iff a b : calculate_similarity a b = 0 ↔ lower a = lower b.
Proof. apply LevenshteinBounds.distance_zero. Qed.

(** X2. The score is zero exactly when the two names are equal once in
    lower case. *)
Theorem calculate_similarity_zero (a b : string) :
  calculate_similarity a b = 0 ↔ lower a = lower b.
Proof. apply score_zero_iff. Qed.

Lemma calculate_similarity_length_gap a b :
  len (lower a) ≤ calculate_similarity a b + len (lower b)
  ∧ len (lower b) ≤ calculate_similarity a b + len (lower a).
Proof.
  unfold calculate_similarity, len.
  pose proof (LevenshteinBounds.distance_length_le (lower a) (lower b)).
  pose proof (LevenshteinBounds.distance_length_le (lower b) (lower a)).
  rewrite (LevenshteinFacts.distance_sym (lower b)) in *. lia.
Qed.

(** X3. Once in lower case, a candidate returned by [find_best_match] is at
    most three characters longer or shorter than the target once in lower
    case. *)
Theorem find_best_match_length_gap (t : string) (cs : list string) (m : string) :
  find_best_match t cs = Some m →
  len (lower m) ≤ len (lower t) + 3 ∧ len (lower t) ≤ len (lower m) + 3.
Proof.
  intros (i & _ & Hle & _)%find_best_match_Some.
  pose proof (calculate_similarity_length_gap t m). lia.
Qed.

Lemma find_best_match_length_gap_witness :
  find_best_match "FirstName" ["customer_id"; "first_name"] = Some "first_name"
  ∧ len (lower "first_name") ≤ len (lower "FirstName") + 3
  ∧ len (lower "FirstName") ≤ len (lower "first_name") + 3.
Proof.
  split; [vm_compute; reflexivity|].
  apply (find_best_match_length_gap "FirstName" ["customer_id"; "first_name"]).
  vm_compute. reflexivity.
Defined.

(** X4. When some candidate equals the target up to case, the answer is
    the first candidate that does. *)
Theorem find_best_match_exact_name (t : string) (cs : list string) (c : string) :
  c ∈ cs → lower c = lower t →
  ∃ i m, find_best_match t cs = Some m
         ∧ cs !! i = Some m
         ∧ lower m = lower t
         ∧ ∀ j c', j < i → cs !! j = Some c' → lower c' ≠ lower t.
Proof.
  intros Hin Hc.
  assert (calculate_similarity t c = 0) as Hzero
    by (by apply score_zero_iff).
  destruct (find_best_match t cs) as [m|] eqn:Hfind.
  - apply find_best_match_Some in Hfind as (i & Hi & _ & Hall & Hbefore).
    destruct (proj1 (list_elem_of_lookup cs c) Hin) as [k Hk].
    pose proof (Hall _ _ Hk) as Hm.
    assert (calculate_similarity t m = 0) as Hm0 by lia.
    exists i, m. repeat split; [done| |].
    + symmetry. by apply score_zero_iff.
    + intros j c' Hj Hlook Heq. specialize (Hbefore _ _ Hj Hlook).
      assert (calculate_similarity t c' = 0)
        by (by apply score_zero_iff). lia.
  - pose proof (find_best_match_None _ _ Hfind c Hin). lia.
Qed.

Lemma find_best_match_exact_name_witness :
  ∃ i m, find_best_match "Email" ["e_mail"; "EMAIL"; "email"] = Some m
         ∧ ["e_mail"; "EMAIL"; "email"] !! i = Some m
         ∧ lower m = lower "Email"
         ∧ ∀ j c', j < i → ["e_mail"; "EMAIL"; "email"] !! j = Some c' →
             lower c' ≠ lower "Email".
Proof.
  apply (find_best_match_exact_name "Email" ["e_mail"; "EMAIL"; "email"] "email").
  - apply list_elem_of_In. simpl. auto.
  - reflexivity.
Defined.

(** ** More on [create_decision_table] *)

(** A matched row records the answer of [find_best_match] on the pool of
    its turn, and consumes it. *)
Lemma step_spec_matched tabi used t r used' :
  step_spec tabi used t r used' → colonna_tabi r ≠ EmptyString →
  find_best_match (column_name t) (available_tabi_cols tabi used)
    = Some (colonna_tabi r)
  ∧ used' = {[ colonna_tabi r ]} ∪ used.
Proof.
  intros [|m i s Hfind _ _ (_ & Hname & _)] Hne; [done|].
  simpl. by rewrite Hname.
Qed.

(** An unmatched row leaves the consumed set alone and comes from a falsy
    answer. *)
Lemma step_spec_unmatched tabi used t r used' :
  step_spec tabi used t r used' → colonna_tabi r = EmptyString →
  truthy_opt (find_best_match (column_name t) (available_tabi_cols tabi used))
    = false
  ∧ used' = used.
Proof.
  intros [|m i s _ Hm%truthy_true _ (_ & Hname & _)] Hempty; [done|].
  simpl in Hempty. congruence.
Qed.

(** X5. A row with a non-empty [colonna_tabi] names a column of the source
    table whose score against the target column is at most 3. *)
Theorem matched_rows_within_threshold (tabi tabo : TableMetadata) :
  ∃ dt, create_decision_table tabi tabo = Ok dt
    ∧ ∀ r, r ∈ dt → colonna_tabi r ≠ EmptyString →
        colonna_tabi r ∈ (column_name <$> tabi)
        ∧ calculate_similarity (colonna_tabo r) (colonna_tabi r) ≤ 3.
Proof.
  destruct (create_decision_table_run tabi tabo) as (dt & used & Hok & Hrun).
  exists dt. split; [done|]. intros r Hin Hne.
  apply run_Forall2 in Hrun.
  destruct (proj1 (list_elem_of_lookup dt r) Hin) as [k Hk].
  destruct (Forall2_lookup_r _ _ _ _ _ Hrun Hk) as (t & _ & u1 & u2 & Hstep).
  destruct (step_spec_target _ _ _ _ _ Hstep) as (_ & -> & _).
  destruct (step_spec_matched _ _ _ _ _ Hstep Hne) as [Hfind _].
  split.
  - by apply find_best_match_elem, elem_of_available in Hfind as [_ ?].
  - by apply find_best_match_Some in Hfind as (i & _ & Hle & _).
Qed.

Lemma run_unmatched_near tabi used ts rs used' :
  (∀ c, c ∈ tabi → column_name c ≠ EmptyString) →
  run tabi used ts rs used' →
  ∀ i t r n, ts !! i = Some t → rs !! i = Some r →
    colonna_tabi r = EmptyString →
    n ∈ (column_name <$> tabi) → calculate_similarity (column_name t) n ≤ 3 →
    n ∈ used ∨ ∃ j rj, j < i ∧ rs !! j = Some rj ∧ colonna_tabi rj = n.
Proof.
  intros Hnames.
  induction 1 as [|used t0 r0 used1 ts rs used2 Hstep Hrun IH];
    intros i t r n Hi Hr Hempty Hn Hscore; [done|].
  destruct i as [|i]; simpl in Hi, Hr.
  - injection Hi as ->. injection Hr as ->. left.
    destruct (step_spec_unmatched _ _ _ _ _ Hstep Hempty) as [Hfalsy _].
    destruct (find_best_match (column_name t) (available_tabi_cols tabi used))
      as [m|] eqn:Hfind.
    + simpl in Hfalsy. apply truthy_false in Hfalsy as ->.
      apply find_best_match_elem, elem_of_available in Hfind as [_ Hin].
      apply list_elem_of_fmap in Hin as (c & Hc & Hin). by destruct (Hnames c Hin).
    + destruct (decide (n ∈ used)) as [|Hfresh]; [done|].
      assert (n ∈ available_tabi_cols tabi used) as Hav
        by (by apply elem_of_available).
      pose proof (find_best_match_None _ _ Hfind n Hav). lia.
  - destruct (IH i t r n Hi Hr Hempty Hn Hscore) as [Hin|(j & rj & Hj & Hrj & Hnj)].
    + destruct (decide (colonna_tabi r0 = EmptyString)) as [He|Hne].
      * destruct (step_spec_unmatched _ _ _ _ _ Hstep He) as [_ ->]. by left.
      * destruct (step_spec_matched _ _ _ _ _ Hstep Hne) as [_ ->].
        apply elem_of_union in Hin as [->%elem_of_singleton|Hin]; [|by left].
        right. exists 0, r0. repeat split; try done; lia.
    + right. exists (S j), rj. repeat split; try done; lia.
Qed.

(** X6. With no empty name in the source table, a target column is left
    unmatched only when every source column within distance 3 of it has
    been taken by an earlier row. *)
Theorem unmatched_only_when_near_columns_taken (tabi tabo : TableMetadata) :
  (∀ c, c ∈ tabi → column_name c ≠ EmptyString) →
  ∃ dt, create_decision_table tabi tabo = Ok dt
    ∧ ∀ i t r n, tabo !! i = Some t → dt !! i = Some r →
        colonna_tabi r = EmptyString →
        n ∈ (column_name <$> tabi) →
        calculate_similarity (column_name t) n ≤ 3 →
        ∃ j rj, j < i ∧ dt !! j = Some rj ∧ colonna_tabi rj = n.
Proof.
  intros Hnames.
  destruct (create_decision_table_run tabi tabo) as (dt & used & Hok & Hrun).
  exists dt. split; [done|]. intros i t r n Hi Hr Hempty Hn Hscore.
  destruct (run_unmatched_near _ _ _ _ _ Hnames Hrun i t r n Hi Hr Hempty Hn Hscore)
    as [Hin|?]; [|done].
  by apply not_elem_of_empty in Hin.
Qed.

(** Two targets compete for [name]; the first takes it and the second, at
    distance 1 from it, stays unmatched. *)
Lemma unmatched_only_when_near_columns_taken_witness :
  ∃ dt, create_decision_table
          [MkColumn "name" "n"] [MkColumn "name" EmptyString; MkColumn "names" EmptyString]
        = Ok dt
    ∧ ∀ i t r n,
        [MkColumn "name" EmptyString; MkColumn "names" EmptyString] !! i = Some t →
        dt !! i = Some r →
        colonna_tabi r = EmptyString →
        n ∈ (column_name <$> [MkColumn "name" "n"]) →
        calculate_similarity (column_name t) n ≤ 3 →
        ∃ j rj, j < i ∧ dt !! j = Some rj ∧ colonna_tabi rj = n.
Proof.
  apply (unmatched_only_when_near_columns_taken [MkColumn "name" "n"]).
  intros c ->%list_elem_of_singleton. discriminate.
Defined.

Lemma run_best_unconsumed tabi used ts rs used' :
  run tabi used ts rs used' →
  ∀ i t r n, ts !! i = Some t → rs !! i = Some r →
    colonna_tabi r ≠ EmptyString →
    n ∈ (column_name <$> tabi) → n ∉ used →
    (∀ j rj, j < i → rs !! j = Some rj → colonna_tabi rj ≠ n) →
    calculate_similarity (column_name t) (colonna_tabi r)
      ≤ calculate_similarity (column_name t) n.
Proof.
  induction 1 as [|used t0 r0 used1 ts rs used2 Hstep Hrun IH];
    intros i t r n Hi Hr Hne Hn Hfresh Hearlier; [done|].
  destruct i as [|i]; simpl in Hi, Hr.
  - injection Hi as ->. injection Hr as ->.
    destruct (step_spec_matched _ _ _ _ _ Hstep Hne) as [Hfind _].
    apply find_best_match_Some in Hfind as (k & _ & _ & Hall & _).
    assert (n ∈ available_tabi_cols tabi used) as Hav
      by (by apply elem_of_available).
    destruct (proj1 (list_elem_of_lookup _ _) Hav) as [kn Hkn].
    by eapply Hall.
  - apply (IH i t r n Hi Hr Hne Hn).
    + destruct (decide (colonna_tabi r0 = EmptyString)) as [He|Hne0].
      * by destruct (step_spec_unmatched _ _ _ _ _ Hstep He) as [_ ->].
      * destruct (step_spec_matched _ _ _ _ _ Hstep Hne0) as [_ ->].
        intros [->%elem_of_singleton|?]%elem_of_union; [|done].
        apply (Hearlier 0 r0); [lia|done..].
    + intros j rj Hj Hrj. apply (Hearlier (S j) rj); [lia|done].
Qed.

(** X7. The match of a row is the best one left: no source column that the
    earlier rows have not taken scores less against the target column. *)
Theorem match_is_best_of_unconsumed (tabi tabo : TableMetadata) :
  ∃ dt, create_decision_table tabi tabo = Ok dt
    ∧ ∀ i t r n, tabo !! i = Some t → dt !! i = Some r →
        colonna_tabi r ≠ EmptyString →
        n ∈ (column_name <$> tabi) →
        (∀ j rj, j < i → dt !! j = Some rj → colonna_tabi rj ≠ n) →
        calculate_similarity (column_name t) (colonna_tabi r)
          ≤ calculate_similarity (column_name t) n.
Proof.
  destruct (create_decision_table_run tabi tabo) as (dt & used & Hok & Hrun).
  exists dt. split; [done|]. intros i t r n Hi Hr Hne Hn Hearlier.
  eapply run_best_unconsumed; eauto. apply not_elem_of_empty.
Qed.

Lemma decision_loop_app tabi ts1 ts2 st :
  decision_loop tabi (ts1 ++ ts2) st
  = mbind (decision_loop tabi ts2) (decision_loop tabi ts1 st).
Proof.
  revert st. induction ts1 as [|t ts1 IH]; intros st; [done|].
  cbn [app decision_loop].
  destruct (decision_step tabi st t) as [st'|e]; [|done].
  rewrite !bind_Ok. apply IH.
Qed.

(** X8. The rows of the first target columns do not depend on the target
    columns that follow: the table of a longer target table starts with the
    table of the shorter one. *)
Theorem earlier_rows_ignore_later_targets (tabi ts1 ts2 : TableMetadata) :
  ∃ dt1 dt2, create_decision_table tabi ts1 = Ok dt1
    ∧ create_decision_table tabi (ts1 ++ ts2) = Ok (dt1 ++ dt2)
    ∧ length dt2 = length ts2.
Proof.
  destruct (decision_loop_run tabi ts1 [] ∅) as (dt1 & used1 & Hloop1 & _).
  destruct (decision_loop_run tabi ts2 ([] ++ dt1) used1)
    as (dt2 & used2 & Hloop2 & Hrun2).
  exists dt1, dt2. unfold create_decision_table.
  rewrite decision_loop_app, Hloop1, !bind_Ok, Hloop2.
  repeat split. symmetry. by eapply Forall2_length, run_Forall2.
Qed.

Lemma filter_all {A} (P : A → Prop) `{∀ x, Decision (P x)} (l : list A) :
  Forall P l → filter P l = l.
Proof.
  induction 1 as [|x l Hx _ IH]; [done|].
  by rewrite filter_cons_True, IH.
Qed.

(** The source names of the matched rows of a run: no repetition, all
    taken from the source table. *)
Lemma run_matched_names tabi used ts rs used' :
  run tabi used ts rs used' →
  NoDup (colonna_tabi <$> filter (λ r, colonna_tabi r ≠ EmptyString) rs)
  ∧ ∀ r, r ∈ rs → colonna_tabi r ≠ EmptyString →
      colonna_tabi r ∈ (column_name <$> tabi).
Proof.
  induction 1 as [|used t r used1 ts rs used2 Hstep Hrun [IHnd IHin]].
  - split; [constructor|]. intros r Hr. by apply elem_of_nil in Hr.
  - split.
    + rewrite filter_cons. case_decide as Hne; [|done].
      rewrite fmap_cons. apply NoDup_cons. split; [|done].
      intros (r' & Heq & [Hne' Hin]%list_elem_of_filter)%list_elem_of_fmap.
      pose proof (run_fresh _ _ _ _ _ Hrun _ Hin Hne') as Hfresh.
      destruct (step_spec_matched _ _ _ _ _ Hstep Hne) as [_ ->].
      rewrite <- Heq in Hfresh. set_solver.
    + intros r' [->|Hin]%elem_of_cons Hne; [|by apply IHin].
      destruct (step_spec_matched _ _ _ _ _ Hstep Hne) as [Hfind _].
      by apply find_best_match_elem, elem_of_available in Hfind as [_ ?].
Qed.

(** X9. The three figures shown after an analysis of a target table that
    has columns (with none, the table made has no column to count on): the
    total and the number of rows to replace both equal the number of target
    columns, and the number of matches found exceeds neither the number of
    target columns nor the number of source columns. *)
Theorem figures_after_analysis (tabi tabo : TableMetadata) :
  tabo ≠ [] →
  ∃ dt, create_decision_table tabi tabo = Ok dt
    ∧ totale_colonne dt = length tabo
    ∧ da_sostituire dt = length tabo
    ∧ corrispondenze_trovate dt ≤ length tabo
    ∧ corrispondenze_trovate dt ≤ length tabi.
Proof.
  intros _.
  destruct (create_decision_table_run tabi tabo) as (dt & used & Hok & Hrun).
  exists dt. split; [done|].
  assert (length dt = length tabo) as Hlen
    by (symmetry; by eapply Forall2_length, run_Forall2).
  assert (selected dt = dt) as Hsel.
  { unfold selected. apply filter_all, Forall_forall. intros r Hin.
    destruct (proj1 (list_elem_of_lookup dt r) Hin) as [k Hk].
    destruct (Forall2_lookup_r _ _ _ _ _ (run_Forall2 _ _ _ _ _ Hrun) Hk)
      as (t & _ & u1 & u2 & Hstep).
    by destruct (step_spec_target _ _ _ _ _ Hstep) as (? & _). }
  unfold totale_colonne, da_sostituire, corrispondenze_trovate.
  rewrite Hsel. repeat split; [done..| |].
  - rewrite <- Hlen. apply length_filter.
  - destruct (run_matched_names _ _ _ _ _ Hrun) as [Hnd Hin].
    rewrite <- (length_fmap colonna_tabi), <- (length_fmap column_name tabi).
    apply submseteq_length, NoDup_submseteq; [done|].
    intros n (r & -> & [Hne Hr]%list_elem_of_filter)%list_elem_of_fmap.
    by apply Hin.
Qed.

Lemma figures_after_analysis_witness :
  ∃ dt, create_decision_table scenario_tabi scenario_tabo = Ok dt
    ∧ totale_colonne dt = length scenario_tabo
    ∧ da_sostituire dt = length scenario_tabo
    ∧ corrispondenze_trovate dt ≤ length scenario_tabo
    ∧ corrispondenze_trovate dt ≤ length scenario_tabi.
Proof. apply figures_after_analysis. discriminate. Defined.

Lemma run_namesakes tabi used ts rs used' :
  (∀ c, c ∈ tabi → column_name c ≠ EmptyString) →
  run tabi used ts rs used' →
  NoDup ((λ t, lower (column_name t)) <$> ts) →
  (∀ t, t ∈ ts →
     ∃ s, s ∈ tabi ∧ lower (column_name s) = lower (column_name t)) →
  (∀ n t, n ∈ used → t ∈ ts → lower n ≠ lower (column_name t)) →
  Forall2 (λ t r, ∃ s, s ∈ tabi
                      ∧ lower (column_name s) = lower (column_name t)
                      ∧ r = matched_row t s) ts rs.
Proof.
  intros Hnames.
  induction 1 as [|used t r used1 ts rs used2 Hstep Hrun IH];
    intros Hnd Hsakes Hused; [constructor|].
  rewrite fmap_cons in Hnd. apply NoDup_cons in Hnd as [Hhead Hnd].
  destruct (Hsakes t) as (s & Hs & Hst); [by left|].
  assert (column_name s ∈ available_tabi_cols tabi used) as Hav.
  { apply elem_of_available. split.
    - intros Hin. by apply (Hused _ t Hin); [left|].
    - apply list_elem_of_fmap. eauto. }
  assert (calculate_similarity (column_name t) (column_name s) = 0) as Hzero
    by (by apply score_zero_iff).
  destruct Hstep as [Hfalsy|m i s' Hfind Hm Hfresh Hfirst].
  - destruct (find_best_match (column_name t) (available_tabi_cols tabi used))
      as [m|] eqn:Hfind.
    + simpl in Hfalsy. apply truthy_false in Hfalsy as ->.
      apply find_best_match_elem, elem_of_available in Hfind as [_ Hin].
      apply list_elem_of_fmap in Hin as (c & Hc & Hin). by destruct (Hnames c Hin).
    + pose proof (find_best_match_None _ _ Hfind _ Hav). lia.
  - apply find_best_match_Some in Hfind as (k & _ & _ & Hall & _).
    destruct (proj1 (list_elem_of_lookup _ _) Hav) as [ks Hks].
    pose proof (Hall _ _ Hks) as Hle.
    assert (lower (column_name t) = lower m) as Hlow
      by (apply score_zero_iff; lia).
    destruct Hfirst as (Hi & Hname & _).
    constructor.
    + exists s'. split; [by eapply list_elem_of_lookup_2|].
      split; [|done]. by rewrite Hname.
    + apply IH; [done| |].
      * intros t' Ht'. apply Hsakes. by right.
      * intros n t' [->%elem_of_singleton|Hn]%elem_of_union Ht'.
        -- intros Heq. apply Hhead. apply list_elem_of_fmap.
           exists t'. split; [congruence|done].
        -- apply Hused; [done|by right].
Qed.

(** X10. When no source name is empty, the target names differ from each
    other up to case, and every target column has a namesake (up to case)
    in the source table, every target column is matched with a namesake,
    whatever the order of the columns. *)
Theorem namesakes_are_matched (tabi tabo : TableMetadata) :
  (∀ c, c ∈ tabi → column_name c ≠ EmptyString) →
  NoDup ((λ t, lower (column_name t)) <$> tabo) →
  (∀ t, t ∈ tabo →
     ∃ s, s ∈ tabi ∧ lower (column_name s) = lower (column_name t)) →
  ∃ dt, create_decision_table tabi tabo = Ok dt
    ∧ Forall2 (λ t r, ∃ s, s ∈ tabi
                          ∧ lower (column_name s) = lower (column_name t)
                          ∧ r = matched_row t s) tabo dt.
Proof.
  intros Hnames Hnd Hsakes.
  destruct (create_decision_table_run tabi tabo) as (dt & used & Hok & Hrun).
  exists dt. split; [done|].
  apply (run_namesakes _ _ _ _ _ Hnames Hrun Hnd Hsakes).
  intros n t Hn. by apply not_elem_of_empty in Hn.
Qed.

(** The target lists the source columns in another order and another
    case. *)
Lemma namesakes_are_matched_witness :
  ∃ dt, create_decision_table
          [MkColumn "ID" "key"; MkColumn "Name" "label"]
          [MkColumn "name" EmptyString; MkColumn "id" EmptyString] = Ok dt
    ∧ Forall2 (λ t r, ∃ s, s ∈ [MkColumn "ID" "key"; MkColumn "Name" "label"]
                          ∧ lower (column_name s) = lower (column_name t)
                          ∧ r = matched_row t s)
        [MkColumn "name" EmptyString; MkColumn "id" EmptyString] dt.
Proof.
  apply namesakes_are_matched.
  - intros c Hc. apply list_elem_of_In in Hc. simpl in Hc.
    destruct Hc as [<-|[<-|[]]]; discriminate.
  - apply NoDup_ListNoDup. repeat constructor; simpl; intuition discriminate.
  - intros t Ht. apply list_elem_of_In in Ht. simpl in Ht.
    destruct Ht as [<-|[<-|[]]].
    + exists (MkColumn "Name" "label"). split; [|reflexivity].
      apply list_elem_of_In. simpl. auto.
    + exists (MkColumn "ID" "key"). split; [|reflexivity].
      apply list_elem_of_In. simpl. auto.
Defined.

(** * Reading the metadata: [get_table_metadata] *)

(** A name that does not start with [#] is not the partition header, so
    the [break] of the loop is never reached. *)
Lemma partition_header_starts_with_hash s :
  String.prefix "#" s = false → String.eqb s "# Partition Information" = false.
Proof.
  intros Hprefix. destruct (String.eqb_spec s "# Partition Information") as [->|];
    [|done]. by vm_compute in Hprefix.
Qed.

Lemma describe_loop_filter rows columns_data :
  describe_loop rows columns_data
  = columns_data ++ (column_of <$> filter (λ row, names_column row = true) rows).
Proof.
  revert columns_data. induction rows as [|row rows IH]; intros columns_data.
  - simpl. by rewrite app_nil_r.
  - cbn [describe_loop]. destruct (names_column row) eqn:Hrow.
    + rewrite filter_cons_True by done.
      unfold names_column in Hrow.
      apply negb_true_iff in Hrow as Hor. rewrite Hor.
      apply orb_false_iff in Hor as [Hprefix _].
      rewrite partition_header_starts_with_hash by done.
      by rewrite IH, fmap_cons, <- app_assoc.
    + rewrite filter_cons_False by (by rewrite Hrow).
      unfold names_column in Hrow. apply negb_false_iff in Hrow as ->.
      apply IH.
Qed.

(** X11. [get_table_metadata] keeps, in order, every row of the answer
    whose name is not empty and does not start with [#], with [None]
    comments turned into the empty string; the loop never stops early. When
    the query raises, the result is the empty table. *)
Theorem get_table_metadata_keeps_named_rows
    (collect : string → option (list DescribeRow))
    (catalog schema table : string) :
  get_table_metadata collect catalog schema table
  = match collect ("DESCRIBE TABLE " +:+ full_table_name catalog schema table) with
    | Some rows => column_of <$> filter (λ row, names_column row = true) rows
    | None => []
    end.
Proof.
  unfold get_table_metadata.
  destruct (collect _) as [rows|]; [|done]. apply describe_loop_filter.
Qed.

Lemma names_column_true row :
  names_column row = true →
  col_name row ≠ EmptyString ∧ String.prefix "#" (col_name row) = false.
Proof.
  unfold names_column. intros [Hp He]%negb_true_iff%orb_false_iff.
  split; [|done]. intros Heq. by rewrite Heq in He.
Qed.

Lemma get_table_metadata_names collect catalog schema table c :
  c ∈ get_table_metadata collect catalog schema table →
  column_name c ≠ EmptyString ∧ String.prefix "#" (column_name c) = false.
Proof.
  unfold get_table_metadata. destruct (collect _) as [rows|].
  - rewrite describe_loop_filter, app_nil_l.
    intros (row & -> & [Hrow _]%list_elem_of_filter)%list_elem_of_fmap.
    by apply names_column_true.
  - intros Hin. by apply elem_of_nil in Hin.
Qed.

(** X12. No column of a table read by [get_table_metadata] has an empty
    name or a name starting with [#]. *)
Theorem get_table_metadata_well_formed_names
    (collect : string → option (list DescribeRow))
    (catalog schema table : string) :
  Forall (λ c, column_name c ≠ EmptyString
               ∧ String.prefix "#" (column_name c) = false)
    (get_table_metadata collect catalog schema table).
Proof. apply Forall_forall. intros c. apply get_table_metadata_names. Qed.

(** X13. The partition header does not end the reading: the rows listed
    after it are read like those before it, so a partition column listed
    again after the header is in the table twice. *)
Theorem describe_loop_reads_past_partition_header
    (before after : list DescribeRow) (c : option string) :
  describe_loop (before ++ MkDescribe "# Partition Information" c :: after) []
  = describe_loop before [] ++ describe_loop after [].
Proof.
  rewrite !describe_loop_filter, !app_nil_l, filter_app, filter_cons_False
    by (by vm_compute).
  by rewrite fmap_app.
Qed.

(** X14. As in [main]: both tables are read by [get_table_metadata] and
    the decision table is made only when neither is empty. Then a row of
    the decision table is unmatched only when every source column within
    distance 3 of the target column is the match of an earlier row. *)
Theorem unmatched_after_get_table_metadata
    (collect : string → option (list DescribeRow))
    (tabi_catalog tabi_schema tabi_table : string)
    (tabo_catalog tabo_schema tabo_table : string) :
  get_table_metadata collect tabi_catalog tabi_schema tabi_table ≠ [] →
  get_table_metadata collect tabo_catalog tabo_schema tabo_table ≠ [] →
  ∃ dt,
    create_decision_table
      (get_table_metadata collect tabi_catalog tabi_schema tabi_table)
      (get_table_metadata collect tabo_catalog tabo_schema tabo_table) = Ok dt
    ∧ ∀ i t r n,
        get_table_metadata collect tabo_catalog tabo_schema tabo_table !! i
          = Some t →
        dt !! i = Some r →
        colonna_tabi r = EmptyString →
        n ∈ (column_name <$>
               get_table_metadata collect tabi_catalog tabi_schema tabi_table) →
        calculate_similarity (column_name t) n ≤ 3 →
        ∃ j rj, j < i ∧ dt !! j = Some rj ∧ colonna_tabi rj = n.
Proof.
  intros _ _.
  set (tabi := get_table_metadata collect tabi_catalog tabi_schema tabi_table).
  set (tabo := get_table_metadata collect tabo_catalog tabo_schema tabo_table).
  assert (∀ c, c ∈ tabi → column_name c ≠ EmptyString) as Hnames.
  { intros c Hc. by apply get_table_metadata_names in Hc as [? _]. }
  destruct (create_decision_table_run tabi tabo) as (dt & used & Hok & Hrun).
  exists dt. split; [done|]. intros i t r n Hi Hr Hempty Hn Hscore.
  destruct (run_unmatched_near _ _ _ _ _ Hnames Hrun i t r n Hi Hr Hempty Hn Hscore)
    as [Hin|?]; [|done].
  by apply not_elem_of_empty in Hin.
Qed.

Lemma unmatched_after_get_table_metadata_witness :
  ∃ dt,
    create_decision_table
      (get_table_metadata collect_example "c" "s" "source")
      (get_table_metadata collect_example "c" "s" "target") = Ok dt
    ∧ ∀ i t r n,
        get_table_metadata collect_example "c" "s" "target" !! i = Some t →
        dt !! i = Some r →
        colonna_tabi r = EmptyString →
        n ∈ (column_name <$> get_table_metadata collect_example "c" "s" "source") →
        calculate_similarity (column_name t) n ≤ 3 →
        ∃ j rj, j < i ∧ dt !! j = Some rj ∧ colonna_tabi rj = n.
Proof.
  apply (unmatched_after_get_table_metadata collect_example
           "c" "s" "source" "c" "s" "target"); by vm_compute.
Defined.

(** The answer of [DESCRIBE TABLE] for a table partitioned by [day]: the
    column comes back once from the column list and once from the
    partition list. *)
Example get_table_metadata_partitioned :
  get_table_metadata
    (λ _, Some [ MkDescribe "id" (Some "key"); MkDescribe "day" None;
                 MkDescribe "# Partition Information" (Some EmptyString);
                 MkDescribe "# col_name" (Some "data_type");
                 MkDescribe "day" None ])
    "c" "s" "t"
  = [ MkColumn "id" "key"; MkColumn "day" EmptyString;
      MkColumn "day" EmptyString ].
Proof. reflexivity. Qed.

(** * Writing the comments: [update_table_comments] *)

Lemma length_append s1 s2 :
  String.length (s1 +:+ s2) = String.length s1 + String.length s2.
Proof. induction s1 as [|c s1 IH]; simpl; by f_equal. Qed.

Lemma append_assoc s1 s2 s3 : (s1 +:+ s2) +:+ s3 = s1 +:+ (s2 +:+ s3).
Proof.
  induction s1 as [|c s1 IH]; [done|].
  change ((String c s1 +:+ s2) +:+ s3) with (String c ((s1 +:+ s2) +:+ s3)).
  by rewrite IH.
Qed.

Lemma replace_quote_escaped prev s :
  quotes_escaped prev (replace_char "'"%char "\'" s).
Proof.
  revert prev. induction s as [|c s IH]; intros prev; [done|].
  cbn [replace_char]. case_decide as Hc.
  - simpl. repeat split; try done; apply IH.
  - simpl. split; [done|apply IH].
Qed.

Lemma replace_quote_length s :
  String.length (replace_char "'"%char "\'" s)
  = String.length s + count_char "'"%char s.
Proof.
  induction s as [|c s IH]; [done|].
  cbn [replace_char count_char]. case_decide.
  - rewrite length_append. cbn [String.length]. rewrite IH. lia.
  - cbn [String.length]. rewrite IH. lia.
Qed.

Lemma replace_quote_append s1 s2 :
  replace_char "'"%char "\'" (s1 +:+ s2)
  = replace_char "'"%char "\'" s1 +:+ replace_char "'"%char "\'" s2.
Proof.
  induction s1 as [|c s1 IH]; [done|].
  change (String c s1 +:+ s2) with (String c (s1 +:+ s2)).
  cbn [replace_char]. rewrite IH. by case_decide.
Qed.

Lemma replace_quote_free s :
  count_char "'"%char s = 0 → replace_char "'"%char "\'" s = s.
Proof.
  induction s as [|c s IH]; [done|].
  cbn [replace_char count_char]. case_decide; [done|].
  intros Hz. by rewrite IH.
Qed.

(** X15. In the escaped comment every quote comes right after a backslash;
    the escaped comment is longer than the comment by its number of quotes,
    and a comment without quotes, backslashes included, is left as it
    is. *)
Theorem escape_comment_quotes (new_comment : string) :
  quotes_escaped None (escape_comment new_comment)
  ∧ len (escape_comment new_comment)
    = len new_comment + count_char "'"%char new_comment
  ∧ (count_char "'"%char new_comment = 0 →
     escape_comment new_comment = new_comment).
Proof.
  unfold escape_comment, len. split; [apply replace_quote_escaped|].
  split; [apply replace_quote_length|apply replace_quote_free].
Qed.

Section SparkFacts.
Context {DB : Type} (spark_sql : string → DB → option DB).

Lemma update_loop_statements full_name updates db :
  update_loop spark_sql full_name updates db
  = run_statements spark_sql (statements full_name updates) db.
Proof.
  revert db. induction updates as [|row updates IH]; intros db; [done|].
  cbn [update_loop]. unfold statements, selected. rewrite filter_cons.
  destruct (sostituire row) eqn:Hrow.
  - rewrite decide_True by done. rewrite fmap_cons. cbn [run_statements].
    destruct (spark_sql _ db) as [db'|]; [|done]. apply IH.
  - rewrite decide_False by done. apply IH.
Qed.

(** X16. [update_table_comments] sends one statement per row whose
    [sostituire] is true, in the order of the rows, until one raises; rows
    whose [sostituire] is false send nothing. When all pass, the count
    reported is the number of statements sent. *)
Theorem update_table_comments_statements
    (catalog schema table : string) (updates : DecisionTable) (db : DB) :
  let stmts := statements (full_table_name catalog schema table) updates in
  update_table_comments spark_sql catalog schema table updates db
  = (fst (run_statements spark_sql stmts db),
     if snd (run_statements spark_sql stmts db)
     then StSuccess (length stmts) else StError).
Proof.
  intros stmts. unfold update_table_comments.
  rewrite update_loop_statements. fold stmts.
  destruct (run_statements spark_sql stmts db) as [db' ok]. simpl.
  unfold stmts, statements. by rewrite length_fmap.
Qed.

Lemma run_statements_outcome stmts db :
  match run_statements spark_sql stmts db with
  | (db', true) => True
  | (db', false) =>
      ∃ sent q rest, stmts = sent ++ q :: rest
                     ∧ run_statements spark_sql sent db = (db', true)
                     ∧ spark_sql q db' = None
  end.
Proof.
  revert db. induction stmts as [|q stmts IH]; intros db; [done|].
  cbn [run_statements]. destruct (spark_sql q db) as [db1|] eqn:Hq.
  - specialize (IH db1).
    destruct (run_statements spark_sql stmts db1) as [db' [|]]; [done|].
    destruct IH as (sent & q' & rest & -> & Hsent & Hq').
    exists (q :: sent), q', rest. cbn [run_statements]. by rewrite Hq.
  - by exists [], q, stmts.
Qed.

(** X17. When [update_table_comments] reports an error, the statements
    before the one that raised have been applied and stay applied, and no
    later statement has been sent; when it reports success, all of them
    have been applied. *)
Theorem update_table_comments_stops_at_first_error
    (catalog schema table : string) (updates : DecisionTable) (db : DB) :
  let stmts := statements (full_table_name catalog schema table) updates in
  match update_table_comments spark_sql catalog schema table updates db with
  | (db', StSuccess n) =>
      n = length (selected updates)
      ∧ run_statements spark_sql stmts db = (db', true)
  | (db', StError) =>
      ∃ sent q rest, stmts = sent ++ q :: rest
                     ∧ run_statements spark_sql sent db = (db', true)
                     ∧ spark_sql q db' = None
  | (_, StWarning) => False
  end.
Proof.
  intros stmts. unfold update_table_comments.
  rewrite update_loop_statements. fold stmts.
  pose proof (run_statements_outcome stmts db) as Hrun.
  by destruct (run_statements spark_sql stmts db) as [db' [|]].
Qed.

Lemma selected_idemp (df : DecisionTable) : selected (selected df) = selected df.
Proof.
  unfold selected. apply filter_all, Forall_forall.
  by intros r [? _]%list_elem_of_filter.
Qed.

(** X18. The confirm button sends nothing and warns when no row is
    selected; otherwise it does what [update_table_comments] does on the
    whole edited table: filtering the selected rows beforehand changes
    neither the statements nor the count. *)
Theorem conferma_e_azione_selected_rows
    (catalog schema table : string) (edited_df : DecisionTable) (db : DB) :
  conferma_e_azione spark_sql (catalog, schema, table) edited_df db
  = if da_sostituire edited_df =? 0 then (db, StWarning)
    else update_table_comments spark_sql catalog schema table edited_df db.
Proof.
  unfold conferma_e_azione, da_sostituire.
  destruct (length (selected edited_df) =? 0); [done|].
  unfold update_table_comments. rewrite !update_loop_statements.
  unfold statements. by rewrite !selected_idemp.
Qed.
End SparkFacts.

(** X19. Backslashes are not escaped: a comment that ends with a
    backslash gives a statement that ends with that backslash followed by
    the closing quote. *)
Theorem alter_statement_trailing_backslash (full_name col new_comment : string) :
  alter_statement full_name col (new_comment +:+ "\")
  = "ALTER TABLE " +:+ full_name +:+ " ALTER COLUMN `" +:+ col
      +:+ "` COMMENT '" +:+ escape_comment new_comment +:+ "\'".
Proof.
  unfold alter_statement, escape_comment.
  rewrite replace_quote_append. cbn [replace_char].
  rewrite decide_False by discriminate. cbn [replace_char].
  by rewrite append_assoc.
Qed.

(** * From the analysis to the update *)

Lemma run_statements_log stmts log :
  run_statements (log_sql (λ _, true)) stmts log = (log ++ stmts, true).
Proof.
  revert log. induction stmts as [|q stmts IH]; intros log.
  - simpl. by rewrite app_nil_r.
  - cbn [run_statements]. unfold log_sql at 1. rewrite IH.
    by rewrite <- app_assoc.
Qed.

Lemma run_selected tabi used ts rs used' :
  run tabi used ts rs used' → selected rs = rs.
Proof.
  intros Hrun. unfold selected. apply filter_all, Forall_forall. intros r Hin.
  destruct (proj1 (list_elem_of_lookup rs r) Hin) as [k Hk].
  destruct (Forall2_lookup_r _ _ _ _ _ (run_Forall2 _ _ _ _ _ Hrun) Hk)
    as (t & _ & u1 & u2 & Hstep).
  by destruct (step_spec_target _ _ _ _ _ Hstep) as (? & _).
Qed.

(** X20. Confirming the decision table as the analysis made it, on a
    database that accepts every statement, sends exactly one statement per
    target column, in the order of the target table, and reports that
    many columns; for a target column that has a comment, the statement
    writes that same comment back. *)
Theorem confirm_without_edits
    (tabi tabo : TableMetadata) (catalog schema table : string) :
  tabo ≠ [] →
  ∃ dt stmts,
    create_decision_table tabi tabo = Ok dt
    ∧ conferma_e_azione (log_sql (λ _, true)) (catalog, schema, table) dt []
      = (stmts, StSuccess (length tabo))
    ∧ Forall2 (λ t q,
        ∃ new_comment,
          q = alter_statement (full_table_name catalog schema table)
                (column_name t) new_comment
          ∧ (comment t ≠ EmptyString → new_comment = comment t))
        tabo stmts.
Proof.
  intros Hne.
  destruct (create_decision_table_run tabi tabo) as (dt & used & Hok & Hrun).
  pose proof (run_selected _ _ _ _ _ Hrun) as Hsel.
  pose proof (run_Forall2 _ _ _ _ _ Hrun) as Hrows.
  pose proof (Forall2_length _ _ _ Hrows) as Hlen.
  exists dt, (statements (full_table_name catalog schema table) dt).
  split; [done|]. split.
  - unfold conferma_e_azione. rewrite Hsel.
    destruct (Nat.eqb_spec (length dt) 0) as [Hz|_].
    { destruct tabo; [done|]. simpl in Hlen. lia. }
    unfold update_table_comments.
    rewrite update_loop_statements, run_statements_log, Hsel. simpl.
    by rewrite Hlen.
  - unfold statements. rewrite Hsel. apply Forall2_fmap_r.
    eapply Forall2_impl; [exact Hrows|].
    intros t r (u1 & u2 & Hstep). unfold compose.
    destruct (step_spec_target _ _ _ _ _ Hstep) as (_ & -> & _ & ->).
    eexists. split; [done|]. intros Hcom. unfold proposed.
    apply truthy_true in Hcom. by rewrite Hcom.
Qed.

Lemma confirm_without_edits_witness :
  ∃ dt stmts,
    create_decision_table scenario_tabi scenario_tabo = Ok dt
    ∧ conferma_e_azione (log_sql (λ _, true)) ("main", "crm", "users") dt []
      = (stmts, StSuccess (length scenario_tabo))
    ∧ Forall2 (λ t q,
        ∃ new_comment,
          q = alter_statement (full_table_name "main" "crm" "users")
                (column_name t) new_comment
          ∧ (comment t ≠ EmptyString → new_comment = comment t))
        scenario_tabo stmts.
Proof. apply confirm_without_edits. discriminate. Defined.

(** * The demo tables of [app_demo.py] *)

Lemma demo_tables_lookup k :
  is_Some (demo_tables !! k)
  ↔ k ∈ ["customers"; "users"; "products"; "items"].
Proof.
  unfold demo_tables. cbn [list_to_map foldr uncurry].
  rewrite !lookup_insert_is_Some, lookup_empty, is_Some_alt.
  rewrite !elem_of_cons, elem_of_nil. cbn [fst snd].
  destruct (decide (k = "customers")), (decide (k = "users")),
    (decide (k = "products")), (decide (k = "items")); intuition congruence.
Qed.

(** X21. The demo tables are looked up by the name in lower case: two
    names equal once in lower case get the same table, a name and its lower
    case get the same table, and the answer has columns exactly for the
    four names [customers], [users], [products] and [items]. *)
Theorem get_demo_table_metadata_ignores_case (table_name other_name : string) :
  (lower table_name = lower other_name →
   get_demo_table_metadata table_name = get_demo_table_metadata other_name)
  ∧ get_demo_table_metadata (lower table_name) = get_demo_table_metadata table_name
  ∧ (get_demo_table_metadata table_name ≠ []
     ↔ lower table_name ∈ ["customers"; "users"; "products"; "items"]).
Proof.
  unfold get_demo_table_metadata. rewrite lower_idemp.
  split; [by intros ->|]. repeat split.
  - intros Hne. apply demo_tables_lookup.
    by destruct (demo_tables !! lower table_name).
  - intros Hin. apply list_elem_of_In in Hin. simpl in Hin.
    destruct Hin as [<-|[<-|[<-|[<-|[]]]]]; by vm_compute.
Qed.

Lemma get_demo_table_metadata_ignores_case_witness :
  lower "USERS" = lower "Users"
  ∧ get_demo_table_metadata "USERS" = get_demo_table_metadata "Users".
Proof.
  split; [reflexivity|].
  apply (proj1 (get_demo_table_metadata_ignores_case "USERS" "Users")).
  reflexivity.
Defined.

(** * Names only *)

Lemma find_step_same_lower t t' st c :
  lower t = lower t' → find_step t st c = find_step t' st c.
Proof.
  intros Hlow. unfold find_step, calculate_similarity. by rewrite Hlow.
Qed.

(** X22. [find_best_match] does not see the case of the target name:
    targets equal up to case get the same answer on the same candidates. *)
Theorem find_best_match_ignores_target_case (t t' : string) (cs : list string) :
  lower t = lower t' → find_best_match t cs = find_best_match t' cs.
Proof.
  intros Hlow. unfold find_best_match, find_loop. f_equal.
  generalize (@None string, @None nat).
  induction cs as [|c cs IH]; intros st; [done|].
  simpl. by rewrite (find_step_same_lower t t' st c Hlow), IH.
Qed.

Lemma find_best_match_ignores_target_case_witness :
  find_best_match "FirstName" ["last_name"; "first_name"]
  = find_best_match "firstname" ["last_name"; "first_name"].
Proof.
  apply (find_best_match_ignores_target_case "FirstName" "firstname").
  reflexivity.
Defined.

Lemma available_same_names (tabi tabi' : TableMetadata) used :
  column_name <$> tabi = column_name <$> tabi' →
  available_tabi_cols tabi used = available_tabi_cols tabi' used.
Proof. unfold available_tabi_cols. by intros ->. Qed.

Lemma run_same_names tabi tabi' used ts ts' rs rs' used1 used2 :
  column_name <$> tabi = column_name <$> tabi' →
  run tabi used ts rs used1 → run tabi' used ts' rs' used2 →
  column_name <$> ts = column_name <$> ts' →
  colonna_tabi <$> rs = colonna_tabi <$> rs'.
Proof.
  intros Htabi Hrun. revert ts' rs' used2.
  induction Hrun as [|used t r used1 ts rs used3 Hstep Hrun IH];
    intros ts' rs' used2 Hrun' Hnames.
  - destruct ts'; [|done]. by inversion Hrun'.
  - destruct ts' as [|t' ts']; [done|].
    rewrite !fmap_cons in Hnames. injection Hnames as Ht Hts.
    inversion Hrun' as [|? ? r' used1' ? rs0 ? Hstep' Hrun0]; subst.
    rewrite !fmap_cons.
    assert (colonna_tabi r = colonna_tabi r' ∧ used1 = used1') as [-> ->].
    { pose proof (available_same_names tabi tabi' used Htabi) as Hav.
      destruct Hstep as [Hfalsy|m i s Hfind Hm _ (_ & Hs & _)];
        destruct Hstep' as [Hfalsy'|m' i' s' Hfind' Hm' _ (_ & Hs' & _)];
        simpl; rewrite <- ?Ht, <- ?Hav in *.
      - done.
      - rewrite Hfind' in Hfalsy. simpl in Hfalsy. congruence.
      - rewrite Hfind in Hfalsy'. simpl in Hfalsy'. congruence.
      - rewrite Hfind in Hfind'. injection Hfind' as <-. by rewrite Hs, Hs'. }
    f_equal. by eapply IH.
Qed.

(** X23. The matching looks at names only: two pairs of tables with the
    same column names, in the same order, get the same source column in
    every row, whatever their comments. *)
Theorem matching_depends_on_names_only (tabi tabi' tabo tabo' : TableMetadata) :
  column_name <$> tabi = column_name <$> tabi' →
  column_name <$> tabo = column_name <$> tabo' →
  ∃ dt dt', create_decision_table tabi tabo = Ok dt
    ∧ create_decision_table tabi' tabo' = Ok dt'
    ∧ colonna_tabi <$> dt = colonna_tabi <$> dt'.
Proof.
  intros Htabi Htabo.
  destruct (create_decision_table_run tabi tabo) as (dt & used & Hok & Hrun).
  destruct (create_decision_table_run tabi' tabo') as (dt' & used' & Hok' & Hrun').
  exists dt, dt'. split; [done|]. split; [done|].
  exact (run_same_names _ _ _ _ _ _ _ _ _ Htabi Hrun Hrun' Htabo).
Qed.

Lemma matching_depends_on_names_only_witness :
  ∃ dt dt',
    create_decision_table scenario_tabi scenario_tabo = Ok dt
    ∧ create_decision_table
        ((λ c, MkColumn (column_name c) EmptyString) <$> scenario_tabi)
        ((λ c, MkColumn (column_name c) "kept") <$> scenario_tabo) = Ok dt'
    ∧ colonna_tabi <$> dt = colonna_tabi <$> dt'.
Proof. apply matching_depends_on_names_only; reflexivity. Defined.
